(** * MeshCore Panel: link store, node resolver, exports and greeting engine

    A shallow embedding of [custom_components/meshcore_panel/__init__.py].

    Conventions of the embedding.
    - Python [str] is [string]; node identities are hexadecimal, so the
      case conversion is the ASCII one.
    - Python [float] values (timestamps, thresholds, coordinates) are
      rationals [Q] with exact arithmetic; [int] values are [Z].
    - A Python [dict] is an insertion-ordered association list
      ([PyDict.t]): [d[k] = v] overwrites in place or appends, iteration
      follows the list.  A [set] is a [gset].
    - [time.time()] is read once in each function that uses it, and
      that reading is passed to the function as [now_ts]; a cycle of
      [_export_data] has four readings ([CycleClock]).
    - Calls on the host's service bus may raise; handlers live in the
      state-and-exception monad [Py]. *)

From Stdlib Require Import ZArith QArith Lqa Lia Bool Ascii String List.
From stdpp Require Import base option list gmap sets strings.

Import ListNotations.
Local Open Scope Z_scope.
Local Open Scope string_scope.
Local Open Scope list_scope.

(** ** Strings *)

Module PyStr.

(** [c.lower()] for one ASCII character. *)
Definition lower_ascii (c : ascii) : ascii :=
  let n := nat_of_ascii c in
  if ((65 <=? n)%nat && (n <=? 90)%nat)%bool then ascii_of_nat (n + 32) else c.

(** [s.lower()] *)
Fixpoint lower (s : string) : string :=
  match s with
  | EmptyString => EmptyString
  | String c s' => String (lower_ascii c) (lower s')
  end.

(** [s.startswith(p)] *)
Definition startswith (s p : string) : bool := String.prefix p s.

(** [sub in s] *)
Fixpoint contains (sub s : string) : bool :=
  String.prefix sub s ||
  match s with
  | EmptyString => false
  | String _ s' => contains sub s'
  end.

(** [s[:n]] *)
Fixpoint take (n : nat) (s : string) : string :=
  match n, s with
  | O, _ => EmptyString
  | S _, EmptyString => EmptyString
  | S n', String c s' => String c (take n' s')
  end.

(** Truth value of a string: [bool(s)]. *)
Definition truthy (s : string) : bool :=
  match s with EmptyString => false | String _ _ => true end.

(** [tuple(sorted([x, y]))] *)
Definition sorted2 (x y : string) : string * string :=
  if String.leb x y then (x, y) else (y, x).

End PyStr.

Arguments PyStr.take : simpl never.

(** ** Insertion-ordered dictionaries *)

Module PyDict.

Definition t (V : Type) : Type := list (string * V).

Section Ops.
Context {V : Type}.

(** [d.get(k)] *)
Fixpoint get (d : t V) (k : string) : option V :=
  match d with
  | [] => None
  | (k', v) :: d' => if String.eqb k' k then Some v else get d' k
  end.

(** [k in d] *)
Definition mem (d : t V) (k : string) : bool :=
  match get d k with Some _ => true | None => false end.

(** [d[k] = v]: an existing key keeps its position, a new key goes
    last. *)
Fixpoint set (d : t V) (k : string) (v : V) : t V :=
  match d with
  | [] => [(k, v)]
  | (k', v') :: d' =>
      if String.eqb k' k then (k', v) :: d' else (k', v') :: set d' k v
  end.

(** [d.items()], [d.values()] *)
Definition items (d : t V) : list (string * V) := d.
Definition values (d : t V) : list V := map snd d.
Definition keys (d : t V) : list string := map fst d.

(** The keys of a dictionary are pairwise distinct. *)
Definition wf (d : t V) : Prop := NoDup (keys d).

End Ops.

End PyDict.

(** ** Link store *)

(** One half-edge, the JSON object [{"last_seen": .., "count": ..}].  A
    snapshot loaded from disk may lack either key; the code reads them
    with [.get(key, default)]. *)
Record Link : Type := mkLink {
  last_seen : option Q;
  count : option Z
}.

(** [self.direct_links]: source identity -> destination identity -> half-edge. *)
Definition Store : Type := PyDict.t (PyDict.t Link).

(** [self.direct_links[a][b]], when both keys exist. *)
Definition half_edge (links : Store) (a b : string) : option Link :=
  match PyDict.get links a with
  | Some conns => PyDict.get conns b
  | None => None
  end.

(** [link.get("last_seen", 0)] and [link.get("count", d)] *)
Definition last_seen_or_0 (e : Link) : Q := default 0%Q (last_seen e).
Definition count_or (d : Z) (e : Link) : Z := default d (count e).

(** [_record_direct_link(self, node_a, node_b, timestamp)]; it touches
    [self.direct_links] only. *)
Definition _record_direct_link (links : Store) (node_a node_b : string)
    (timestamp : Q) : Store :=
  let links :=
    if negb (PyDict.mem links node_a) then PyDict.set links node_a [] else links in
  let conns := default [] (PyDict.get links node_a) in
  match PyDict.get conns node_b with
  | Some e =>
      let e := mkLink (Some timestamp) (count e) in
      let e := mkLink (last_seen e) (Some (count_or 0 e + 1)) in
      PyDict.set links node_a (PyDict.set conns node_b e)
  | None =>
      PyDict.set links node_a
        (PyDict.set conns node_b (mkLink (Some timestamp) (Some 1)))
  end.

(** The body of the loop of [_process_rx_log_data] at index [i].  The
    loop bound keeps both indices in range. *)
Definition rx_loop_body (path_nodes : list string) (now_ts : Q)
    (links : Store) (i : nat) : Store :=
  match path_nodes !! i, path_nodes !! (i + 1)%nat with
  | Some pa, Some pb =>
      let node_a := PyStr.lower pa in
      let node_b := PyStr.lower pb in
      let links := _record_direct_link links node_a node_b now_ts in
      _record_direct_link links node_b node_a now_ts
  | _, _ => links
  end.

(** The payload of a raw event, a dict with optional keys, and the event
    data around it.  A field is [None] when its key is absent and
    [Some v] when the key holds a value of the type the code expects
    there: a dict under [parsed], a list of strings under [path_nodes],
    a string under [public_key] and [adv_name], an integer under
    [type].  A key that holds null or a value of another type has no
    encoding here.  On such payloads the code raises out of the
    handler: [TypeError] at [[:12]] for a null [public_key], before
    anything is changed, and [AttributeError] at [.get] or [.lower()]
    for a null [parsed] or a path node that is not a string, after the
    pairs in front of that node have been recorded.  What is said below
    about the handler returning speaks of the encoded payloads only. *)
Module Event.

Record Parsed : Type := mkParsed {
  path_nodes : option (list string)
}.

Record Payload : Type := mkPayload {
  parsed : option Parsed;
  public_key : option string;
  adv_name : option string;
  type : option Z
}.

Record t : Type := mk {
  event_type : option string;
  payload : option Payload
}.

(** The default [{}] of [event.data.get("payload", {})]. *)
Definition empty_payload : Payload := mkPayload None None None None.

End Event.

(** [_process_rx_log_data(self, payload)]; it touches [self.direct_links]
    only. *)
Definition _process_rx_log_data (links : Store) (payload : Event.Payload)
    (now_ts : Q) : Store :=
  let parsed := default (Event.mkParsed None) (Event.parsed payload) in
  let path_nodes := default [] (Event.path_nodes parsed) in
  if (length path_nodes <? 2)%nat then links
  else
    fold_left (rx_loop_body path_nodes now_ts)
      (seq 0 (length path_nodes - 1)) links.

(** The retention pass of [_save_persisted_data] on the link store. *)
Definition max_age : Q := 7 * 24 * 3600.

Definition clean_connections (now_ts : Q) (connections : PyDict.t Link)
    : PyDict.t Link :=
  fold_left
    (fun cleaned_connections '(node_b, link_data) =>
       if Qle_bool (now_ts - last_seen_or_0 link_data) max_age
       then PyDict.set cleaned_connections node_b link_data
       else cleaned_connections)
    (PyDict.items connections) [].

Definition clean_links (now_ts : Q) (links : Store) : Store :=
  fold_left
    (fun cleaned_links '(node_a, connections) =>
       let cleaned_connections := clean_connections now_ts connections in
       match cleaned_connections with
       | [] => cleaned_links
       | _ :: _ => PyDict.set cleaned_links node_a cleaned_connections
       end)
    (PyDict.items links) [].

(** ** The host: contact states, settings and the service bus *)

(** The value of a coordinate attribute as [attrs.get(..)] returns it:
    [None] when the attribute is missing or null, the empty string, a
    number, or a string [s] that [float] reads as the number [x], such
    as ["0"] or ["51.5"].  On a string that [float] does not read,
    [float] raises [ValueError] out of the function that called it;
    such attribute values have no encoding here, so what follows speaks
    of hosts whose truthy coordinate attributes are numbers or numerals. *)
Inductive CoordAttr : Type :=
| CoordAbsent
| CoordEmpty
| CoordNum (x : Q)
| CoordNumeral (s : string) (x : Q).

(** Truth value of a number: [bool(x)] is false exactly at zero. *)
Definition num_truthy (x : Q) : bool := negb (Qeq_bool x 0).

(** Truth value of an attribute value: a string is false exactly when
    it is empty, whatever number it spells. *)
Definition coord_truthy (c : CoordAttr) : bool :=
  match c with
  | CoordAbsent | CoordEmpty => false
  | CoordNum x => num_truthy x
  | CoordNumeral s _ => PyStr.truthy s
  end.

(** [a or b] *)
Definition coord_or (a b : CoordAttr) : CoordAttr :=
  if coord_truthy a then a else b.

(** [float(c)]; the code applies it to truthy values only, which are
    numbers and non-empty numerals. *)
Definition float (c : CoordAttr) : Q :=
  match c with
  | CoordNum x | CoordNumeral _ x => x
  | CoordAbsent | CoordEmpty => 0
  end.

(** Truth value of an optional number, as in [not last_advert]. *)
Definition opt_truthy (o : option Q) : bool :=
  match o with
  | Some x => num_truthy x
  | None => false
  end.

(** [a > b] on numbers *)
Definition Qgt_bool (a b : Q) : bool := negb (Qle_bool a b).

(** [a < b] on numbers *)
Definition Qlt_bool (a b : Q) : bool := negb (Qle_bool b a).

Module Attr.

(** [state.attributes] of a host state object. *)
Record t : Type := mk {
  pubkey_prefix : option string;
  adv_name : option string;
  node_type_str : option string;
  adv_lat : CoordAttr;
  latitude : CoordAttr;
  adv_lon : CoordAttr;
  longitude : CoordAttr;
  last_advert : option Q;
  last_message_time : option Q;
  path_nodes : option (list string)
}.

End Attr.

Module State.

(** [state.state] is a string; [float(state.state)] either gives a
    number or raises [ValueError]. *)
Inductive Value : Type :=
| Numeric (x : Q)
| Text (s : string).

Record t : Type := mk {
  entity_id : string;
  state : Value;
  attributes : Attr.t
}.

End State.

(** The test that selects contact sensors among the host's states. *)
Definition is_contact_sensor (state : State.t) : bool :=
  PyStr.startswith (State.entity_id state) "binary_sensor.meshcore_"
  && PyStr.contains "_contact" (State.entity_id state).

(** [hass.states.get(entity_id)] *)
Definition states_get (states : list State.t) (entity_id : string)
    : option State.t :=
  List.find (fun st => String.eqb (State.entity_id st) entity_id) states.

(** [_get_threshold_hours(self, entity_id, default)] *)
Definition _get_threshold_hours (states : list State.t) (entity_id : string)
    (default : Q) : Q :=
  match states_get states entity_id with
  | Some state =>
      match State.state state with
      | State.Numeric x => x
      | State.Text _ => default
      end
  | None => default
  end.

(** ** Sorting *)

(** [l.sort(key=.., reverse=True)] and [sorted(l, key=.., reverse=True)]:
    a stable sort into descending key order.  Each element is inserted
    behind the elements whose key is not smaller. *)
Section Sort.
Context {A K : Type} (ltb : K -> K -> bool) (key : A -> K).

Fixpoint insert_desc (x : A) (l : list A) : list A :=
  match l with
  | [] => [x]
  | y :: l' =>
      if ltb (key y) (key x) then x :: y :: l' else y :: insert_desc x l'
  end.

Definition sort_desc (l : list A) : list A :=
  fold_left (fun sorted x => insert_desc x sorted) l [].

End Sort.

(** ** Node resolver *)

Module NodeInfo.

(** The dict [_get_node_info] returns. *)
Record t : Type := mk {
  name : string;
  lat : Q;
  lon : Q;
  pubkey : string;
  node_type : string;
  last_advert : Q
}.

End NodeInfo.

(** The body of the scan of [_get_node_info] over the host's states. *)
Definition node_info_loop_body (pubkey_prefix : string)
    (matches : list NodeInfo.t) (state : State.t) : list NodeInfo.t :=
  if negb (is_contact_sensor state) then matches
  else
    let attrs := State.attributes state in
    let pubkey := PyStr.lower (default "" (Attr.pubkey_prefix attrs)) in
    if PyStr.truthy pubkey
       && PyStr.startswith pubkey (PyStr.lower pubkey_prefix)
    then
      let lat := coord_or (Attr.adv_lat attrs) (Attr.latitude attrs) in
      let lon := coord_or (Attr.adv_lon attrs) (Attr.longitude attrs) in
      if coord_truthy lat && coord_truthy lon
      then
        matches ++
        [ NodeInfo.mk
            (default "Unknown" (Attr.adv_name attrs))
            (float lat)
            (float lon)
            pubkey
            (PyStr.lower (default "Unknown" (Attr.node_type_str attrs)))
            (default 0%Q (Attr.last_advert attrs)) ]
      else matches
    else matches.

Definition is_repeater (m : NodeInfo.t) : bool :=
  PyStr.contains "repeater" (NodeInfo.node_type m).

(** [_get_node_info(self, pubkey_prefix)], reading [hass.states.async_all()]. *)
Definition _get_node_info (states : list State.t) (pubkey_prefix : string)
    : option NodeInfo.t :=
  let matches := fold_left (node_info_loop_body pubkey_prefix) states [] in
  match matches with
  | [] => None
  | [m] => Some m
  | _ :: _ :: _ =>
      let repeaters := List.filter is_repeater matches in
      match repeaters with
      | _ :: _ => head (sort_desc Qlt_bool NodeInfo.last_advert repeaters)
      | [] => head (sort_desc Qlt_bool NodeInfo.last_advert matches)
      end
  end.

(** ** Export engine *)

Module HeatNode.
Record t : Type := mk {
  name : string;
  lat : Q;
  lon : Q;
  use_count : Z
}.
End HeatNode.

Module MapNode.
Record t : Type := mk {
  name : string;
  lat : Q;
  lon : Q;
  node_type : string;
  age_hours : Q
}.
End MapNode.

Module LinkNode.
Record t : Type := mk {
  name : string;
  lat : Q;
  lon : Q;
  node_type : string;
  link_count : Z
}.
End LinkNode.

Module LinkEntry.
Record t : Type := mk {
  from_pubkey : string;
  from_name : string;
  from_lat : Q;
  from_lon : Q;
  to_pubkey : string;
  to_name : string;
  to_lat : Q;
  to_lon : Q;
  count : Z
}.

(** [link["count"] = c] *)
Definition set_count (link : t) (c : Z) : t :=
  mk (from_pubkey link) (from_name link) (from_lat link) (from_lon link)
     (to_pubkey link) (to_name link) (to_lat link) (to_lon link) c.

(** [tuple(sorted([link["from_pubkey"], link["to_pubkey"]]))] *)
Definition key (link : t) : string * string :=
  PyStr.sorted2 (from_pubkey link) (to_pubkey link).
End LinkEntry.

(** The JSON documents the three exports write. *)
Record HeatmapDoc : Type := mkHeatmapDoc {
  heatmap_threshold_hours : Q;
  heatmap_nodes : list HeatNode.t;
  heatmap_updated : Q
}.

Record NodemapDoc : Type := mkNodemapDoc {
  nodemap_threshold_hours : Q;
  nodemap_nodes : list MapNode.t;
  nodemap_updated : Q
}.

Record DirectLinksDoc : Type := mkDirectLinksDoc {
  directlinks_threshold_hours : Q;
  directlinks_nodes : list LinkNode.t;
  directlinks_links : list LinkEntry.t;
  directlinks_updated : Q
}.

(** [==] on the sorted pairs of identities *)
Definition key_eqb (k1 k2 : string * string) : bool :=
  String.eqb (fst k1) (fst k2) && String.eqb (snd k1) (snd k2).

(** *** Heatmap *)

(** [node_data[key]["use_count"] += 1], after the entry was created when
    missing. *)
Definition heatmap_count_node (node_data : PyDict.t HeatNode.t)
    (node_info : NodeInfo.t) : PyDict.t HeatNode.t :=
  let key := NodeInfo.pubkey node_info in
  let node_data :=
    if negb (PyDict.mem node_data key)
    then PyDict.set node_data key
           (HeatNode.mk (NodeInfo.name node_info) (NodeInfo.lat node_info)
              (NodeInfo.lon node_info) 0)
    else node_data in
  match PyDict.get node_data key with
  | Some n =>
      PyDict.set node_data key
        (HeatNode.mk (HeatNode.name n) (HeatNode.lat n) (HeatNode.lon n)
           (HeatNode.use_count n + 1))
  | None => node_data
  end.

Definition heatmap_path_body (states : list State.t)
    (node_data : PyDict.t HeatNode.t) (node_prefix : string)
    : PyDict.t HeatNode.t :=
  match _get_node_info states node_prefix with
  | Some node_info => heatmap_count_node node_data node_info
  | None => node_data
  end.

Definition heatmap_loop_body (states : list State.t) (now_ts threshold_sec : Q)
    (node_data : PyDict.t HeatNode.t) (state : State.t)
    : PyDict.t HeatNode.t :=
  if negb (PyStr.contains "meshcore_hops_" (State.entity_id state))
  then node_data
  else
    let attrs := State.attributes state in
    let last_msg := Attr.last_message_time attrs in
    if negb (opt_truthy last_msg)
       || Qgt_bool (now_ts - default 0%Q last_msg) threshold_sec
    then node_data
    else
      let path_nodes := default [] (Attr.path_nodes attrs) in
      fold_left (heatmap_path_body states) path_nodes node_data.

(** [_export_heatmap_data(self)]: the document handed to [json.dump]. *)
Definition _export_heatmap_data (states : list State.t) (now_ts : Q)
    : HeatmapDoc :=
  let threshold_hours :=
    _get_threshold_hours states "input_number.meshcore_heatmap_threshold_hours"
      168 in
  let threshold_sec := (threshold_hours * 3600)%Q in
  let node_data :=
    fold_left (heatmap_loop_body states now_ts threshold_sec) states [] in
  let nodes_list :=
    sort_desc Z.ltb HeatNode.use_count (PyDict.values node_data) in
  mkHeatmapDoc threshold_hours nodes_list now_ts.

(** *** Nodemap *)

Definition nodemap_loop_body (now_ts threshold_sec : Q)
    (nodes_list : list MapNode.t) (state : State.t) : list MapNode.t :=
  if negb (is_contact_sensor state) then nodes_list
  else
    let attrs := State.attributes state in
    let last_advert := Attr.last_advert attrs in
    if negb (opt_truthy last_advert)
       || Qgt_bool (now_ts - default 0%Q last_advert) threshold_sec
    then nodes_list
    else
      let lat := coord_or (Attr.adv_lat attrs) (Attr.latitude attrs) in
      let lon := coord_or (Attr.adv_lon attrs) (Attr.longitude attrs) in
      if coord_truthy lat && coord_truthy lon
      then
        nodes_list ++
        [ MapNode.mk
            (default "Unknown" (Attr.adv_name attrs))
            (float lat)
            (float lon)
            (PyStr.lower (default "Unknown" (Attr.node_type_str attrs)))
            ((now_ts - default 0%Q last_advert) / 3600)%Q ]
      else nodes_list.

(** [_export_nodemap_data(self)]: the document handed to [json.dump]. *)
Definition _export_nodemap_data (states : list State.t) (now_ts : Q)
    : NodemapDoc :=
  let threshold_hours :=
    _get_threshold_hours states "input_number.meshcore_advert_threshold_hours"
      12 in
  let threshold_sec := (threshold_hours * 3600)%Q in
  let nodes_list :=
    fold_left (nodemap_loop_body now_ts threshold_sec) states [] in
  mkNodemapDoc threshold_hours nodes_list now_ts.

(** *** Direct links *)

(** The scan of [link_data] for an entry with the same sorted pair of
    identities: the first such entry gets the maximum of the two counts
    and the scan stops.  The flag is [existing]. *)
Fixpoint merge_existing (link_key : string * string) (c : Z)
    (link_data : list LinkEntry.t) : bool * list LinkEntry.t :=
  match link_data with
  | [] => (false, [])
  | link :: rest =>
      if key_eqb (LinkEntry.key link) link_key
      then (true, LinkEntry.set_count link (Z.max (LinkEntry.count link) c) :: rest)
      else
        let '(existing, rest') := merge_existing link_key c rest in
        (existing, link :: rest')
  end.

(** The "track node" step on [node_data]. *)
Definition track_node (node_data : PyDict.t LinkNode.t)
    (node_a_info : NodeInfo.t) : PyDict.t LinkNode.t :=
  let key := NodeInfo.pubkey node_a_info in
  let node_data :=
    if negb (PyDict.mem node_data key)
    then PyDict.set node_data key
           (LinkNode.mk (NodeInfo.name node_a_info) (NodeInfo.lat node_a_info)
              (NodeInfo.lon node_a_info) (NodeInfo.node_type node_a_info) 0)
    else node_data in
  match PyDict.get node_data key with
  | Some n =>
      PyDict.set node_data key
        (LinkNode.mk (LinkNode.name n) (LinkNode.lat n) (LinkNode.lon n)
           (LinkNode.node_type n) (LinkNode.link_count n + 1))
  | None => node_data
  end.

(** The "create link (avoid duplicates)" step on [link_data]. *)
Definition add_link (link_data : list LinkEntry.t)
    (node_a_info node_b_info : NodeInfo.t) (link_info : Link)
    : list LinkEntry.t :=
  let link_key :=
    PyStr.sorted2 (NodeInfo.pubkey node_a_info) (NodeInfo.pubkey node_b_info) in
  let '(existing, link_data) :=
    merge_existing link_key (count_or 1 link_info) link_data in
  if negb existing
  then
    link_data ++
    [ LinkEntry.mk
        (NodeInfo.pubkey node_a_info) (NodeInfo.name node_a_info)
        (NodeInfo.lat node_a_info) (NodeInfo.lon node_a_info)
        (NodeInfo.pubkey node_b_info) (NodeInfo.name node_b_info)
        (NodeInfo.lat node_b_info) (NodeInfo.lon node_b_info)
        (count_or 1 link_info) ]
  else link_data.

(** The body of the inner loop, over the connections of [node_a_prefix]. *)
Definition directlinks_inner_body (states : list State.t)
    (now_ts threshold_sec : Q) (node_a_info : NodeInfo.t)
    (acc : PyDict.t LinkNode.t * list LinkEntry.t) (item : string * Link)
    : PyDict.t LinkNode.t * list LinkEntry.t :=
  let '(node_data, link_data) := acc in
  let '(node_b_prefix, link_info) := item in
  if Qgt_bool (now_ts - last_seen_or_0 link_info) threshold_sec then acc
  else
    match _get_node_info states node_b_prefix with
    | None => acc
    | Some node_b_info =>
        (track_node node_data node_a_info,
         add_link link_data node_a_info node_b_info link_info)
    end.

(** The body of the outer loop, over the link store. *)
Definition directlinks_outer_body (states : list State.t)
    (now_ts threshold_sec : Q)
    (acc : PyDict.t LinkNode.t * list LinkEntry.t)
    (item : string * PyDict.t Link)
    : PyDict.t LinkNode.t * list LinkEntry.t :=
  let '(node_a_prefix, connections) := item in
  match _get_node_info states node_a_prefix with
  | None => acc
  | Some node_a_info =>
      fold_left (directlinks_inner_body states now_ts threshold_sec node_a_info)
        (PyDict.items connections) acc
  end.

(** The two loops of [_export_directlinks_data]: [(node_data, link_data)]. *)
Definition directlinks_collect (states : list State.t) (links : Store)
    (now_ts threshold_sec : Q) : PyDict.t LinkNode.t * list LinkEntry.t :=
  fold_left (directlinks_outer_body states now_ts threshold_sec)
    (PyDict.items links) ([], []).

(** [_export_directlinks_data(self)]: the document handed to [json.dump]. *)
Definition _export_directlinks_data (states : list State.t) (links : Store)
    (now_ts : Q) : DirectLinksDoc :=
  let threshold_hours :=
    _get_threshold_hours states "input_number.meshcore_heatmap_threshold_hours"
      168 in
  let threshold_sec := (threshold_hours * 3600)%Q in
  let '(node_data, link_data) :=
    directlinks_collect states links now_ts threshold_sec in
  let nodes_list :=
    sort_desc Z.ltb LinkNode.link_count (PyDict.values node_data) in
  mkDirectLinksDoc threshold_hours nodes_list link_data now_ts.

(** ** The coordinator and its effects *)

(** An argument value of a service call. *)
Inductive Arg : Type :=
| ArgInt (n : Z)
| ArgStr (s : string).

Module ServiceCall.
(** [hass.services.call(domain, service, data)] *)
Record t : Type := mk {
  domain : string;
  service : string;
  data : list (string * Arg)
}.
End ServiceCall.

Module Hass.
(** The host as the coordinator sees it.  [outcomes] lists what the
    coming service calls will do, in order: [None] returns, [Some msg]
    raises [Exception(msg)]; a call beyond the list returns.  [calls]
    lists the calls issued so far, oldest first. *)
Record t : Type := mk {
  states : list State.t;
  outcomes : list (option string);
  calls : list ServiceCall.t
}.
End Hass.

Module Coordinator.
(** The fields of [MeshCorePanelCoordinator] the handlers use. *)
Record t : Type := mk {
  hass : Hass.t;
  my_name : string;
  greet_enabled : bool;
  direct_links : Store;
  last_message_times : PyDict.t Q;
  greeted_pubkeys : gset string
}.

Definition with_hass (f : Hass.t -> Hass.t) (c : t) : t :=
  mk (f (hass c)) (my_name c) (greet_enabled c) (direct_links c)
     (last_message_times c) (greeted_pubkeys c).

Definition with_direct_links (f : Store -> Store) (c : t) : t :=
  mk (hass c) (my_name c) (greet_enabled c) (f (direct_links c))
     (last_message_times c) (greeted_pubkeys c).

Definition with_last_message_times (f : PyDict.t Q -> PyDict.t Q) (c : t) : t :=
  mk (hass c) (my_name c) (greet_enabled c) (direct_links c)
     (f (last_message_times c)) (greeted_pubkeys c).

Definition with_greeted_pubkeys (f : gset string -> gset string) (c : t) : t :=
  mk (hass c) (my_name c) (greet_enabled c) (direct_links c)
     (last_message_times c) (f (greeted_pubkeys c)).
End Coordinator.

(** Records of the module logger. *)
Inductive Level : Type := INFO | WARNING | ERROR.

(** The state the handlers run on: the coordinator and the log. *)
Record World : Type := mkWorld {
  self : Coordinator.t;
  log : list (Level * string)
}.

(** The result of running a handler: it returns or an exception leaves it. *)
Inductive Outcome (A : Type) : Type :=
| Returns (a : A)
| Raises (msg : string).
Arguments Returns {A} a.
Arguments Raises {A} msg.

Definition Py (A : Type) : Type := World -> Outcome A * World.

Definition py_ret {A} (a : A) : Py A := fun w => (Returns a, w).

Definition py_bind {A B} (m : Py A) (k : A -> Py B) : Py B :=
  fun w =>
    match m w with
    | (Returns a, w') => k a w'
    | (Raises msg, w') => (Raises msg, w')
    end.

(** [try: body  except Exception as e: handler(e)] *)
Definition try_except {A} (body : Py A) (handler : string -> Py A) : Py A :=
  fun w =>
    match body w with
    | (Returns a, w') => (Returns a, w')
    | (Raises msg, w') => handler msg w'
    end.

Definition get_self : Py Coordinator.t := fun w => (Returns (self w), w).

Definition modify_self (f : Coordinator.t -> Coordinator.t) : Py unit :=
  fun w => (Returns tt, mkWorld (f (self w)) (log w)).

(** [_LOGGER.info(..)], [_LOGGER.error(..)] *)
Definition logger (level : Level) (text : string) : Py unit :=
  fun w => (Returns tt, mkWorld (self w) (log w ++ [(level, text)])).

Notation "x <- m ;; k" := (py_bind m (fun x => k))
  (at level 100, m at next level, right associativity).
Notation "m ;;; k" := (py_bind m (fun _ => k))
  (at level 100, right associativity).

(** [self.hass.services.call(domain, service, data)] *)
Definition services_call (domain service : string) (data : list (string * Arg))
    : Py unit :=
  fun w =>
    let h := Coordinator.hass (self w) in
    let issued := Hass.calls h ++ [ServiceCall.mk domain service data] in
    let next := tail (Hass.outcomes h) in
    let w' :=
      mkWorld
        (Coordinator.with_hass (fun _ => Hass.mk (Hass.states h) next issued)
           (self w))
        (log w) in
    match head (Hass.outcomes h) with
    | Some (Some msg) => (Raises msg, w')
    | Some None | None => (Returns tt, w')
    end.

(** The text of the greeting. *)
Definition greeting_text (name my_name : string) : string :=
  "Welcome to the mesh " +:+ name +:+ "! ðŸ‘‹ from " +:+ my_name.

Definition newline : string := String (ascii_of_nat 10) EmptyString.

Definition notification_text (name pubkey : string) : string :=
  "**" +:+ name +:+ "**" +:+ newline +:+ "Pubkey: " +:+ pubkey
  +:+ newline +:+ newline +:+ "Greeted on Public channel".

(** [_send_greeting(self, name, pubkey)] *)
Definition _send_greeting (name pubkey : string) : Py unit :=
  modify_self (Coordinator.with_greeted_pubkeys (fun s => s ∪ {[pubkey]})) ;;;
  c <- get_self ;;
  let message := greeting_text name (Coordinator.my_name c) in
  try_except
    (services_call "meshcore" "send_channel_message"
       [("channel", ArgInt 0); ("text", ArgStr message)] ;;;
     services_call "persistent_notification" "create"
       [("title", ArgStr "ðŸ†• New MeshCore Contact");
        ("message", ArgStr (notification_text name pubkey))] ;;;
     logger INFO ("Greeted new contact: " +:+ name +:+ " (" +:+ pubkey +:+ ")"))
    (fun e =>
       logger ERROR ("Error sending greeting: " +:+ e) ;;;
       modify_self (Coordinator.with_greeted_pubkeys (fun s => s ∖ {[pubkey]}))).

(** [_process_new_contact(self, payload)] *)
Definition _process_new_contact (payload : Event.Payload) : Py unit :=
  c <- get_self ;;
  if negb (Coordinator.greet_enabled c) then py_ret tt
  else
    let pubkey := PyStr.take 12 (default "" (Event.public_key payload)) in
    let name := default "Unknown" (Event.adv_name payload) in
    let node_type := default 0 (Event.type payload) in
    if (node_type =? 2)%Z then py_ret tt
    else if negb (PyStr.truthy pubkey)
            || bool_decide (pubkey ∈ Coordinator.greeted_pubkeys c)
    then py_ret tt
    else _send_greeting name pubkey.

(** [_handle_meshcore_event(self, event)]; [now_ts] is what [time.time()]
    gives while the event is handled. *)
Definition _handle_meshcore_event (event : Event.t) (now_ts : Q) : Py unit :=
  let event_type := default "" (Event.event_type event) in
  let payload := default Event.empty_payload (Event.payload event) in
  if String.eqb event_type "EventType.RX_LOG_DATA"
  then
    modify_self
      (Coordinator.with_direct_links
         (fun links => _process_rx_log_data links payload now_ts))
  else if String.eqb event_type "EventType.NEW_CONTACT"
  then _process_new_contact payload
  else py_ret tt.

(** [_save_persisted_data(self)]: the retention pass on the link store and
    on the last-activity map.  The three snapshot writes that follow each
    pass catch and log their own failures and leave the coordinator as it
    is. *)
Definition _save_persisted_data (c : Coordinator.t) (now_ts : Q)
    : Coordinator.t :=
  let c := Coordinator.with_direct_links (clean_links now_ts) c in
  Coordinator.with_last_message_times
    (fun last_message_times =>
       fold_left
         (fun cleaned_messages '(k, v) =>
            if Qle_bool (now_ts - v) max_age
            then PyDict.set cleaned_messages k v
            else cleaned_messages)
         (PyDict.items last_message_times) [])
    c.

(** The send-channel-message commands among the issued calls. *)
Definition is_send_channel_message (call : ServiceCall.t) : bool :=
  String.eqb (ServiceCall.domain call) "meshcore"
  && String.eqb (ServiceCall.service call) "send_channel_message".

Definition greetings_sent (w : World) : nat :=
  length (List.filter is_send_channel_message
            (Hass.calls (Coordinator.hass (self w)))).

(** The host's bus delivering a sequence of raw events, each with the
    clock reading at its delivery. *)
Definition run_events (events : list (Event.t * Q)) (w : World) : World :=
  fold_left (fun w '(event, now_ts) => snd (_handle_meshcore_event event now_ts w))
    events w.

(** ** Notions the properties are stated with *)

(** The link store is symmetric: each half-edge has its reverse, with the
    same count and the same last-seen time. *)
Definition symmetric (links : Store) : Prop :=
  forall a b e,
    half_edge links a b = Some e ->
    exists e', half_edge links b a = Some e'
               /\ count e' = count e /\ last_seen e' = last_seen e.

(** The link store is a dict of dicts: keys are distinct at both levels. *)
Definition store_wf (links : Store) : Prop :=
  PyDict.wf links /\ Forall PyDict.wf (PyDict.values links).

(** The node sequence a path-trace payload carries. *)
Definition path_of (payload : Event.Payload) : list string :=
  default [] (Event.path_nodes
    (default (Event.mkParsed None) (Event.parsed payload))).

(** The payload of a path-trace event with the given node sequence. *)
Definition trace_payload (nodes : list string) : Event.Payload :=
  Event.mkPayload (Some (Event.mkParsed (Some nodes))) None None None.

(** The consecutive pairs of a sequence. *)
Definition consecutive_pairs (l : list string) : list (string * string) :=
  combine l (tail l).

(** Recording one pair of a path in both directions. *)
Definition record_both (timestamp : Q) (links : Store) (pair : string * string)
    : Store :=
  let node_a := PyStr.lower (fst pair) in
  let node_b := PyStr.lower (snd pair) in
  _record_direct_link (_record_direct_link links node_a node_b timestamp)
    node_b node_a timestamp.

(** The count a half-edge gets when it is recorded once more. *)
Definition next_count (old : option Link) : Z :=
  match old with
  | Some e => count_or 0 e + 1
  | None => 1
  end.

(** What the pass leaves of one source node: its retained connections,
    or nothing when none is retained. *)
Definition surviving (now_ts : Q) (connections : PyDict.t Link)
    : option (PyDict.t Link) :=
  match clean_connections now_ts connections with
  | [] => None
  | c :: cs => Some (c :: cs)
  end.

(** The half-edge from [x] to [y] exists and carries the time [now_ts]. *)
Definition stamped (now_ts : Q) (links : Store) (x y : string) : Prop :=
  exists c, half_edge links x y = Some (mkLink (Some now_ts) (Some c)).

(** The retention test of the save pass on one half-edge. *)
Definition retained (now_ts : Q) (e : Link) : bool :=
  Qle_bool (now_ts - last_seen_or_0 e) max_age.

(** The coordinates of a contact record after the fallback from the
    advertised to the host's attribute. *)
Definition effective_lat (attrs : Attr.t) : CoordAttr :=
  coord_or (Attr.adv_lat attrs) (Attr.latitude attrs).

Definition effective_lon (attrs : Attr.t) : CoordAttr :=
  coord_or (Attr.adv_lon attrs) (Attr.longitude attrs).

(** A coordinate that is missing, an empty string or the number zero. *)
Definition blank (c : CoordAttr) : Prop :=
  match c with
  | CoordAbsent | CoordEmpty => True
  | CoordNum x => (x == 0)%Q
  | CoordNumeral s _ => s = ""
  end.

(** A coordinate that is not held as a non-empty string. *)
Definition as_number (c : CoordAttr) : Prop :=
  match c with
  | CoordNumeral s _ => s = ""
  | CoordAbsent | CoordEmpty | CoordNum _ => True
  end.

(** A record none of whose four coordinate attributes is a non-empty
    string. *)
Definition coordinates_as_numbers (state : State.t) : Prop :=
  let attrs := State.attributes state in
  as_number (Attr.adv_lat attrs) /\ as_number (Attr.latitude attrs)
  /\ as_number (Attr.adv_lon attrs) /\ as_number (Attr.longitude attrs).

(** The record carries non-empty coordinates. *)
Definition has_coordinates (state : State.t) : bool :=
  coord_truthy (effective_lat (State.attributes state))
  && coord_truthy (effective_lon (State.attributes state)).

(** The identity of a contact record, lower-cased. *)
Definition identity (state : State.t) : string :=
  PyStr.lower (default "" (Attr.pubkey_prefix (State.attributes state))).

(** The records the resolver considers for a prefix: contact records with
    an identity that starts with the prefix, whatever the case of either,
    and with non-empty coordinates. *)
Definition is_candidate (prefix : string) (state : State.t) : bool :=
  is_contact_sensor state
  && PyStr.truthy (identity state)
  && PyStr.startswith (identity state) (PyStr.lower prefix)
  && has_coordinates state.

(** The resolved node of a contact record. *)
Definition node_of (state : State.t) : NodeInfo.t :=
  let attrs := State.attributes state in
  NodeInfo.mk
    (default "Unknown" (Attr.adv_name attrs))
    (float (effective_lat attrs))
    (float (effective_lon attrs))
    (identity state)
    (PyStr.lower (default "Unknown" (Attr.node_type_str attrs)))
    (default 0%Q (Attr.last_advert attrs)).

(** The head of a list sorted by [sort_desc] after one more insertion, from
    the head [best] before it. *)
Definition better {A} (key : A -> Q) (best : option A) (x : A) : option A :=
  Some match best with
       | Some y => if Qlt_bool (key y) (key x) then x else y
       | None => x
       end.

(** [m] has the latest [last_advert] of the pool and is the first such
    record in the order of the pool. *)
Definition first_latest (pool : list NodeInfo.t) (m : NodeInfo.t) : Prop :=
  exists before after,
    pool = before ++ m :: after
    /\ Forall (fun x => (NodeInfo.last_advert x < NodeInfo.last_advert m)%Q) before
    /\ Forall (fun x => (NodeInfo.last_advert x <= NodeInfo.last_advert m)%Q) after.

(** The pool the resolver picks from: the repeaters among the candidates
    when there is one, all candidates otherwise. *)
Definition preferred (cands : list NodeInfo.t) : list NodeInfo.t :=
  match List.filter is_repeater cands with
  | [] => cands
  | r :: rs => r :: rs
  end.

(** A position with neither coordinate at zero. *)
Definition located (lat lon : Q) : Prop := ~ (lat == 0)%Q /\ ~ (lon == 0)%Q.

(** The records the nodemap export emits: contact records with a recent
    enough advertisement and non-empty coordinates. *)
Definition nodemap_selected (now_ts threshold_sec : Q) (state : State.t) : bool :=
  is_contact_sensor state
  && negb (negb (opt_truthy (Attr.last_advert (State.attributes state)))
           || Qgt_bool (now_ts - default 0%Q (Attr.last_advert (State.attributes state)))
                threshold_sec)
  && has_coordinates state.

(** The nodemap entry of a contact record. *)
Definition map_node_of (now_ts : Q) (state : State.t) : MapNode.t :=
  let attrs := State.attributes state in
  MapNode.mk
    (default "Unknown" (Attr.adv_name attrs))
    (float (effective_lat attrs))
    (float (effective_lon attrs))
    (PyStr.lower (default "Unknown" (Attr.node_type_str attrs)))
    ((now_ts - default 0%Q (Attr.last_advert attrs)) / 3600)%Q.

(** An exported node has a position away from zero. *)
Definition heat_located (n : HeatNode.t) : Prop :=
  located (HeatNode.lat n) (HeatNode.lon n).

Definition map_located (n : MapNode.t) : Prop :=
  located (MapNode.lat n) (MapNode.lon n).

Definition node_located (n : LinkNode.t) : Prop :=
  located (LinkNode.lat n) (LinkNode.lon n).

(** Both ends of an exported link have a position away from zero. *)
Definition link_located (link : LinkEntry.t) : Prop :=
  located (LinkEntry.from_lat link) (LinkEntry.from_lon link)
  /\ located (LinkEntry.to_lat link) (LinkEntry.to_lon link).

(** A half-edge of the store with both ends resolved. *)
Definition ResolvedEdge : Type := NodeInfo.t * NodeInfo.t * Link.

(** The unordered pair of resolved identities a half-edge connects, as
    the sorted pair the export compares, and the count it carries. *)
Definition edge_key (e : ResolvedEdge) : string * string :=
  PyStr.sorted2 (NodeInfo.pubkey (fst (fst e))) (NodeInfo.pubkey (snd (fst e))).

Definition edge_count (e : ResolvedEdge) : Z := count_or 1 (snd e).

(** The half-edges of the store within the threshold whose two ends
    resolve, in the order of the store. *)
Definition resolved_connections (states : list State.t) (now_ts threshold_sec : Q)
    (node_a_info : NodeInfo.t) (connections : PyDict.t Link) : list ResolvedEdge :=
  flat_map
    (fun item : string * Link =>
       if Qgt_bool (now_ts - last_seen_or_0 (snd item)) threshold_sec then []
       else
         match _get_node_info states (fst item) with
         | Some node_b_info => [(node_a_info, node_b_info, snd item)]
         | None => []
         end)
    connections.

Definition resolved_edges (states : list State.t) (links : Store)
    (now_ts threshold_sec : Q) : list ResolvedEdge :=
  flat_map
    (fun item : string * PyDict.t Link =>
       match _get_node_info states (fst item) with
       | Some node_a_info =>
           resolved_connections states now_ts threshold_sec node_a_info (snd item)
       | None => []
       end)
    links.

(** [c] is the maximum of the counts observed on the half-edges that
    connect the pair [k]. *)
Definition is_max_count (edges : list ResolvedEdge) (k : string * string)
    (c : Z) : Prop :=
  (exists e, e ∈ edges /\ edge_key e = k /\ edge_count e = c)
  /\ (forall e, e ∈ edges -> edge_key e = k -> edge_count e <= c).

(** The exported link entries for the pair [k]. *)
Definition entries_for (k : string * string) (link_data : list LinkEntry.t)
    : list LinkEntry.t :=
  List.filter (fun link => key_eqb (LinkEntry.key link) k) link_data.

(** The "create link" step for one resolved half-edge. *)
Definition add_edge (link_data : list LinkEntry.t) (e : ResolvedEdge)
    : list LinkEntry.t :=
  add_link link_data (fst (fst e)) (snd (fst e)) (snd e).

(** What the export keeps while it merges: one entry per pair, each with
    the maximum count of the half-edges seen for its pair. *)
Definition merged (edges : list ResolvedEdge) (link_data : list LinkEntry.t)
    : Prop :=
  NoDup (map LinkEntry.key link_data)
  /\ (forall link, link ∈ link_data ->
        is_max_count edges (LinkEntry.key link) (LinkEntry.count link))
  /\ (forall e, e ∈ edges -> edge_key e ∈ map LinkEntry.key link_data).

(** Two resolved half-edges connect the same unordered pair of resolved
    identities. *)
Definition same_pair (e1 e2 : ResolvedEdge) : Prop :=
  let a1 := NodeInfo.pubkey (fst (fst e1)) in
  let b1 := NodeInfo.pubkey (snd (fst e1)) in
  let a2 := NodeInfo.pubkey (fst (fst e2)) in
  let b2 := NodeInfo.pubkey (snd (fst e2)) in
  (a1 = a2 /\ b1 = b2) \/ (a1 = b2 /\ b1 = a2).

(** Sample data: a contact sensor with advertised coordinates. *)
Definition contact (pubkey name node_type : string) (lat lon : CoordAttr)
    (last_advert : Q) : State.t :=
  State.mk ("binary_sensor.meshcore_" +:+ pubkey +:+ "_contact") (State.Text "on")
    (Attr.mk (Some pubkey) (Some name) (Some node_type) lat CoordAbsent
       lon CoordAbsent (Some last_advert) None None).

(** Sample data: two located contacts X and Y, and a store in which the
    two directions between them were recorded independently, with counts
    3 and 5. *)
Definition sample_X : State.t :=
  contact "aaaa11111111" "X" "Repeater" (CoordNum 51) (CoordNum 4) 100.

Definition sample_Y : State.t :=
  contact "bbbb22222222" "Y" "Client" (CoordNum 52) (CoordNum 5) 100.

Definition sample_links : Store :=
  [("aaaa11111111", [("bbbb22222222", mkLink (Some 1000%Q) (Some 3))]);
   ("bbbb22222222", [("aaaa11111111", mkLink (Some 1000%Q) (Some 5))])].

(** The greeted set, the issued calls and the coming outcomes of a world. *)
Definition greeted (w : World) : gset string :=
  Coordinator.greeted_pubkeys (self w).

Definition issued (w : World) : list ServiceCall.t :=
  Hass.calls (Coordinator.hass (self w)).

Definition coming (w : World) : list (option string) :=
  Hass.outcomes (Coordinator.hass (self w)).


(** One of the two commands of a greeting sent now would fail: the
    message of the failure. *)
Definition greeting_failure (w : World) : option string :=
  match coming w with
  | Some msg :: _ => Some msg
  | None :: Some msg :: _ => Some msg
  | _ => None
  end.

(** The identity a new-contact payload is filed under, and the type code
    it carries. *)
Definition contact_pubkey (payload : Event.Payload) : string :=
  PyStr.take 12 (default "" (Event.public_key payload)).

Definition contact_type (payload : Event.Payload) : Z :=
  default 0 (Event.type payload).

(** The type codes of the mesh: 1 is a chat client, 2 a repeater, 3 a
    room server. *)
Definition TYPE_CLIENT : Z := 1.
Definition TYPE_REPEATER : Z := 2.
Definition TYPE_ROOM_SERVER : Z := 3.

(** A new-contact payload. *)
Definition new_contact (pubkey name : string) (node_type : Z) : Event.Payload :=
  Event.mkPayload None (Some pubkey) (Some name) (Some node_type).

(** A coordinator with greeting enabled, an empty store and the given
    greeted set, on a host whose coming service calls behave as listed. *)
Definition sample_world (greeted : gset string) (outcomes : list (option string))
    : World :=
  mkWorld (Coordinator.mk (Hass.mk [] outcomes []) "Me" true [] [] greeted) [].

(** The world after the handler has processed a new-contact payload. *)
Definition after_contact (payload : Event.Payload) (w : World) : World :=
  snd (_process_new_contact payload w).



(** ** Notions for the further properties *)

(** How often one pair of a path writes the half-edge from [x] to [y]:
    once when it is the pair itself, once when it is its reverse, after
    lower-casing. *)
Definition pair_writes (x y : string) (pair : string * string) : nat :=
  ((if String.eqb (PyStr.lower (fst pair)) x && String.eqb (PyStr.lower (snd pair)) y
    then 1 else 0)
   + (if String.eqb (PyStr.lower (snd pair)) x && String.eqb (PyStr.lower (fst pair)) y
      then 1 else 0))%nat.

(** How often a path writes the half-edge from [x] to [y]. *)
Definition path_writes (x y : string) (path : list string) : nat :=
  list_sum (map (pair_writes x y) (consecutive_pairs path)).

(** The count a half-edge carries, 0 when the half-edge or its count is
    missing. *)
Definition stored_count (old : option Link) : Z :=
  match old with
  | Some e => count_or 0 e
  | None => 0
  end.

(** A half-edge after [n] writes at the time [now_ts]. *)
Definition written (n : nat) (now_ts : Q) (old : option Link) : option Link :=
  match n with
  | O => old
  | S _ => Some (mkLink (Some now_ts) (Some (stored_count old + Z.of_nat n)))
  end.

(** All identities of the half-edges of the store are lower-case. *)
Definition lower_keyed (links : Store) : Prop :=
  forall a b e,
    half_edge links a b = Some e -> PyStr.lower a = a /\ PyStr.lower b = b.

(** The retention test of the save pass on one last-activity time. *)
Definition recent_activity (now_ts : Q) (v : Q) : bool :=
  Qle_bool (now_ts - v) max_age.






(** A hop record the heatmap export reads: its entity id has the hops
    marker and its last message is within the threshold. *)
Definition recent_hop (now_ts threshold_sec : Q) (state : State.t) : bool :=
  PyStr.contains "meshcore_hops_" (State.entity_id state)
  && negb (negb (opt_truthy (Attr.last_message_time (State.attributes state)))
           || Qgt_bool
                (now_ts - default 0%Q (Attr.last_message_time (State.attributes state)))
                threshold_sec).

(** The path nodes of one hop record that resolve, in order, each as
    often as it occurs; none when the record is not a recent hop record. *)
Definition hop_nodes (states : list State.t) (now_ts threshold_sec : Q)
    (state : State.t) : list NodeInfo.t :=
  if recent_hop now_ts threshold_sec state
  then
    flat_map
      (fun node_prefix =>
         match _get_node_info states node_prefix with
         | Some node_info => [node_info]
         | None => []
         end)
      (default [] (Attr.path_nodes (State.attributes state)))
  else [].

(** The resolved path nodes of all recent hop records. *)
Definition resolved_hops (states : list State.t) (now_ts threshold_sec : Q)
    : list NodeInfo.t :=
  flat_map (hop_nodes states now_ts threshold_sec) states.

(** One step of the two accumulators of the direct-links export. *)
Definition collect_edge (acc : PyDict.t LinkNode.t * list LinkEntry.t)
    (e : ResolvedEdge) : PyDict.t LinkNode.t * list LinkEntry.t :=
  (track_node (fst acc) (fst (fst e)), add_edge (snd acc) e).

(** The sum of a field over a list of exported nodes. *)
Definition total {A} (field : A -> Z) (l : list A) : Z :=
  fold_right (fun n s => field n + s) 0 l.

(** A list in descending order of a field. *)
Fixpoint descending {A} (field : A -> Z) (l : list A) : Prop :=
  match l with
  | [] => True
  | x :: l' => Forall (fun y => field y <= field x) l' /\ descending field l'
  end.

(** The guards of [_process_new_contact]: the payload goes on to the
    greeting. *)
Definition handler_greets (payload : Event.Payload) (w : World) : bool :=
  Coordinator.greet_enabled (self w)
  && negb (contact_type payload =? 2)%Z
  && PyStr.truthy (contact_pubkey payload)
  && negb (bool_decide (contact_pubkey payload ∈ greeted w)).

(** The event type of an event, as the handler reads it. *)
Definition type_of (event : Event.t) : string :=
  default "" (Event.event_type event).

(** ** Cleanup engine *)

(** [DEFAULT_CLEANUP_DAYS] of [const.py] and the threshold in seconds. *)
Definition DEFAULT_CLEANUP_DAYS : Q := 30.

Definition cleanup_threshold_sec : Q := DEFAULT_CLEANUP_DAYS * 24 * 3600.

(** [not t or (now_ts - t) > threshold_sec] *)
Definition is_old (now_ts threshold_sec : Q) (t : option Q) : bool :=
  negb (opt_truthy t) || Qgt_bool (now_ts - default 0%Q t) threshold_sec.

(** [self.last_message_times.get(attrs.get("pubkey_prefix"))] *)
Definition last_message_of (c : Coordinator.t) (attrs : Attr.t) : option Q :=
  match Attr.pubkey_prefix attrs with
  | Some pubkey => PyDict.get (Coordinator.last_message_times c) pubkey
  | None => None
  end.

(** The body of the loop of [_cleanup_old_contacts]. *)
Definition cleanup_loop_body (now_ts threshold_sec : Q) (state : State.t)
    : Py unit :=
  if negb (is_contact_sensor state) then py_ret tt
  else
    c <- get_self ;;
    let attrs := State.attributes state in
    let last_advert := Attr.last_advert attrs in
    let last_message := last_message_of c attrs in
    let advert_old := is_old now_ts threshold_sec last_advert in
    let message_old := is_old now_ts threshold_sec last_message in
    if advert_old && message_old
    then
      let pubkey := default "" (Attr.pubkey_prefix attrs) in
      if PyStr.truthy pubkey
      then
        try_except
          (services_call "meshcore" "execute_command"
             [("command", ArgStr ("remove_contact " +:+ pubkey))] ;;;
           logger INFO ("Removed old contact: " +:+ pubkey))
          (fun e => logger WARNING ("Error removing contact: " +:+ e))
      else py_ret tt
    else py_ret tt.

(** [for x in l: body(x)] *)
Fixpoint for_each {A} (l : list A) (body : A -> Py unit) : Py unit :=
  match l with
  | [] => py_ret tt
  | x :: l' => body x ;;; for_each l' body
  end.

(** [_cleanup_old_contacts(self)] *)
Definition _cleanup_old_contacts (now_ts : Q) : Py unit :=
  let threshold_sec := cleanup_threshold_sec in
  c <- get_self ;;
  let states := Hass.states (Coordinator.hass c) in
  for_each states (cleanup_loop_body now_ts threshold_sec).

(** A contact record the sweep removes: a contact sensor with a pubkey
    whose last advertisement and last message are both missing, zero or
    older than the threshold. *)
Definition stale (c : Coordinator.t) (now_ts : Q) (state : State.t) : bool :=
  is_contact_sensor state
  && is_old now_ts cleanup_threshold_sec (Attr.last_advert (State.attributes state))
  && is_old now_ts cleanup_threshold_sec (last_message_of c (State.attributes state))
  && PyStr.truthy (default "" (Attr.pubkey_prefix (State.attributes state))).

(** The command that removes a contact. *)
Definition remove_call (state : State.t) : ServiceCall.t :=
  ServiceCall.mk "meshcore" "execute_command"
    [("command",
      ArgStr ("remove_contact "
              +:+ default "" (Attr.pubkey_prefix (State.attributes state))))].

(** The log records of a run of removals, by the outcomes of their
    calls. *)
Fixpoint removal_log (removed : list State.t) (outcomes : list (option string))
    : list (Level * string) :=
  match removed with
  | [] => []
  | state :: rest =>
      match head outcomes with
      | Some (Some msg) => (WARNING, "Error removing contact: " +:+ msg)
      | _ =>
          (INFO,
           "Removed old contact: "
           +:+ default "" (Attr.pubkey_prefix (State.attributes state)))
      end
      :: removal_log rest (tail outcomes)
  end.

(** ** Snapshot files *)

(** The file names of [const.py]; all lie in [self.www_path]. *)
Definition DIRECTLINKS_PERSIST_FILE : string := "meshcore_directlinks_persist.json".
Definition HOPS_SENSORS_FILE : string := "meshcore_hops_sensors.json".
Definition LAST_MESSAGES_FILE : string := "meshcore_last_messages.json".
Definition GREETED_FILE : string := "meshcore_greeted.json".

Module Json.
(** The JSON object of a snapshot file, a dict with optional keys. *)
Record t : Type := mk {
  direct_links : option Store;
  last_messages : option (PyDict.t Q);
  greeted : option (list string);
  saved_at : option Q;
  count : option Z
}.

(** The object [{}]. *)
Definition empty : t := mk None None None None None.
End Json.

(** What opening and parsing a file gives: [open] or [json.load] raises,
    or the parsed object. *)
Inductive File : Type :=
| Unreadable (msg : string)
| Readable (data : Json.t).

Module Disk.
(** The persistence directory: the files that exist, and for each path
    whether opening it for writing raises. *)
Record t : Type := mk {
  files : gmap string File;
  write_error : string -> option string
}.
End Disk.

(** [with open(path, 'w') as f: json.dump(data, f)] inside its
    [try]/[except]: a failure is logged and leaves the file as it was. *)
Definition write_json (path what : string) (data : Json.t)
    (acc : Disk.t * list (Level * string)) : Disk.t * list (Level * string) :=
  let '(disk, log) := acc in
  match Disk.write_error disk path with
  | Some e => (disk, log ++ [(ERROR, "Error saving " +:+ what +:+ ": " +:+ e)])
  | None =>
      (Disk.mk (<[path := Readable data]> (Disk.files disk)) (Disk.write_error disk),
       log)
  end.

(** [_save_persisted_data(self)] with its three snapshot writes: the
    coordinator after the retention pass, the disk and the log. *)
Definition save_snapshots (c : Coordinator.t) (now_ts : Q)
    (disk : Disk.t) (log : list (Level * string))
    : Coordinator.t * (Disk.t * list (Level * string)) :=
  let c := _save_persisted_data c now_ts in
  let acc := (disk, log) in
  let acc :=
    write_json DIRECTLINKS_PERSIST_FILE "direct links"
      (Json.mk (Some (Coordinator.direct_links c)) None None (Some now_ts) None)
      acc in
  let acc :=
    write_json LAST_MESSAGES_FILE "last messages"
      (Json.mk None (Some (Coordinator.last_message_times c)) None (Some now_ts) None)
      acc in
  let acc :=
    write_json GREETED_FILE "greeted list"
      (Json.mk None None (Some (elements (Coordinator.greeted_pubkeys c))) None
         (Some (Z.of_nat (size (Coordinator.greeted_pubkeys c)))))
      acc in
  (c, acc).

(** One block of [_load_persisted_data]: when the file exists, its object
    updates the coordinator, and a failure to read it is logged as a
    warning. *)
Definition load_json (disk : Disk.t) (path what : string)
    (update : Json.t -> Coordinator.t -> Coordinator.t)
    (acc : Coordinator.t * list (Level * string))
    : Coordinator.t * list (Level * string) :=
  let '(c, log) := acc in
  match Disk.files disk !! path with
  | None => (c, log)
  | Some (Unreadable e) =>
      (c, log ++ [(WARNING, "Error loading " +:+ what +:+ ": " +:+ e)])
  | Some (Readable data) => (update data c, log)
  end.

(** [_load_persisted_data(self)].  The hops-sensors cache it also fills
    is not among the fields of the coordinator the handlers use; its
    block leaves the coordinator as it is. *)
Definition _load_persisted_data (disk : Disk.t) (c : Coordinator.t)
    (log : list (Level * string)) : Coordinator.t * list (Level * string) :=
  let acc := (c, log) in
  let acc :=
    load_json disk DIRECTLINKS_PERSIST_FILE "direct links"
      (fun data =>
         Coordinator.with_direct_links
           (fun _ => default [] (Json.direct_links data)))
      acc in
  let acc :=
    load_json disk LAST_MESSAGES_FILE "last messages"
      (fun data =>
         Coordinator.with_last_message_times
           (fun _ => default [] (Json.last_messages data)))
      acc in
  let acc :=
    load_json disk HOPS_SENSORS_FILE "hops sensors" (fun _ c => c) acc in
  load_json disk GREETED_FILE "greeted list"
    (fun data =>
       Coordinator.with_greeted_pubkeys
         (fun _ => list_to_set (default [] (Json.greeted data))))
    acc.

(** ** Properties *)

(** *** Dictionaries *)

Section DictFacts.
Context {V : Type}.
Implicit Types (d : PyDict.t V) (k : string) (v : V).

Lemma get_set_eq d k v : PyDict.get (PyDict.set d k v) k = Some v.
Proof.
  induction d as [|[k' v'] d IH]; simpl.
  - now rewrite String.eqb_refl.
  - destruct (String.eqb_spec k' k) as [->|Hne]; simpl.
    + now rewrite String.eqb_refl.
    + destruct (String.eqb_spec k' k); [contradiction|exact IH].
Qed.

Lemma get_set_ne d k k' v :
  k <> k' -> PyDict.get (PyDict.set d k v) k' = PyDict.get d k'.
Proof.
  intros Hne. induction d as [|[k0 v0] d IH]; simpl.
  - destruct (String.eqb_spec k k'); [contradiction|reflexivity].
  - destruct (String.eqb_spec k0 k) as [->|Hk]; simpl.
    + destruct (String.eqb_spec k k'); [contradiction|reflexivity].
    + destruct (String.eqb_spec k0 k'); [reflexivity|exact IH].
Qed.

Lemma get_None_keys d k : PyDict.get d k = None <-> k ∉ PyDict.keys d.
Proof.
  induction d as [|[k' v'] d IH]; simpl.
  - split; [intros _; apply not_elem_of_nil|reflexivity].
  - rewrite not_elem_of_cons.
    destruct (String.eqb_spec k' k) as [->|Hne].
    + split; [discriminate|intros [? _]; contradiction].
    + rewrite IH. split; [intros ?; split; [congruence|assumption]|tauto].
Qed.

Lemma get_Some_elem d k v : PyDict.get d k = Some v -> (k, v) ∈ d.
Proof.
  induction d as [|[k' v'] d IH]; simpl; [discriminate|].
  destruct (String.eqb_spec k' k) as [->|Hne].
  - intros [= ->]. apply list_elem_of_here.
  - intros H. apply list_elem_of_further, IH, H.
Qed.

Lemma elem_get_Some d k v :
  PyDict.wf d -> (k, v) ∈ d -> PyDict.get d k = Some v.
Proof.
  unfold PyDict.wf.
  induction d as [|[k' v'] d IH]; simpl; intros Hwf Hin.
  - now apply elem_of_nil in Hin.
  - apply NoDup_cons in Hwf as [Hk' Hwf].
    apply elem_of_cons in Hin as [[= -> ->]|Hin].
    + now rewrite String.eqb_refl.
    + destruct (String.eqb_spec k' k) as [->|Hne]; [|now apply IH].
      exfalso. apply Hk'. apply (list_elem_of_fmap_2 fst) in Hin. exact Hin.
Qed.

Lemma set_fresh d k v :
  k ∉ PyDict.keys d -> PyDict.set d k v = d ++ [(k, v)].
Proof.
  induction d as [|[k' v'] d IH]; simpl; [reflexivity|].
  rewrite not_elem_of_cons. intros [Hne Hk].
  destruct (String.eqb_spec k' k); [congruence|]. now rewrite IH.
Qed.

Lemma keys_app d1 d2 : PyDict.keys (d1 ++ d2) = PyDict.keys d1 ++ PyDict.keys d2.
Proof. apply map_app. Qed.

(** Rebuilding a dictionary entry by entry, keeping the entries that
    pass a test, is a filter when the keys are distinct. *)
Lemma rebuild_filter (P : V -> bool) d acc :
  NoDup (PyDict.keys acc ++ PyDict.keys d) ->
  fold_left
    (fun cleaned '(k, v) => if P v then PyDict.set cleaned k v else cleaned)
    d acc
  = acc ++ List.filter (fun kv => P (snd kv)) d.
Proof.
  revert acc. induction d as [|[k v] d IH]; intros acc Hnd; simpl.
  - now rewrite app_nil_r.
  - simpl in Hnd.
    assert (Hk : k ∉ PyDict.keys acc).
    { apply NoDup_app in Hnd as (_ & Hdis & _).
      intros Hin. apply (Hdis k Hin). apply list_elem_of_here. }
    assert (Hnd' : NoDup (PyDict.keys acc ++ PyDict.keys d)).
    { apply NoDup_app in Hnd as (Ha & Hdis & Hd).
      apply NoDup_cons in Hd as [_ Hd].
      apply NoDup_app. repeat split; [assumption| |assumption].
      intros x Hx Hx'. apply (Hdis x Hx). now apply list_elem_of_further. }
    destruct (P v).
    + rewrite IH.
      * rewrite set_fresh by assumption. now rewrite <- app_assoc.
      * rewrite set_fresh by assumption. rewrite keys_app. simpl.
        rewrite <- app_assoc. exact Hnd.
    + now apply IH.
Qed.

Lemma get_filter (P : V -> bool) d k :
  PyDict.wf d ->
  PyDict.get (List.filter (fun kv => P (snd kv)) d) k
  = match PyDict.get d k with
    | Some v => if P v then Some v else None
    | None => None
    end.
Proof.
  unfold PyDict.wf.
  induction d as [|[k' v'] d IH]; simpl; intros Hwf; [reflexivity|].
  apply NoDup_cons in Hwf as [Hk' Hwf].
  destruct (String.eqb_spec k' k) as [->|Hne].
  - destruct (P v') eqn:HP; simpl.
    + now rewrite String.eqb_refl.
    + rewrite IH by assumption.
      apply get_None_keys in Hk'. now rewrite Hk'.
  - destruct (P v'); simpl; [|now apply IH].
    destruct (String.eqb_spec k' k); [contradiction|now apply IH].
Qed.

End DictFacts.

Section ForallFacts.
Context {V : Type} (P : V -> Prop).

Lemma Forall_values_set (d : PyDict.t V) k v :
  Forall P (PyDict.values d) -> P v -> Forall P (PyDict.values (PyDict.set d k v)).
Proof.
  intros Hd Hv. induction d as [|[k' v'] d IH]; simpl.
  - constructor; [exact Hv|constructor].
  - simpl in Hd. apply Forall_cons in Hd as [Hv' Hd].
    destruct (String.eqb k' k); simpl; constructor; auto.
Qed.

Lemma Forall_values_get (d : PyDict.t V) k v :
  Forall P (PyDict.values d) -> PyDict.get d k = Some v -> P v.
Proof.
  intros Hd Hget. apply get_Some_elem in Hget.
  rewrite Forall_forall in Hd. apply Hd.
  apply (list_elem_of_fmap_2 snd) in Hget. exact Hget.
Qed.

Lemma Forall_insert_desc {K} (ltb : K -> K -> bool) (key : V -> K) x l :
  P x -> Forall P l -> Forall P (insert_desc ltb key x l).
Proof.
  intros Hx Hl. induction l as [|y l IH]; simpl.
  - constructor; [exact Hx|constructor].
  - apply Forall_cons in Hl as [Hy Hl].
    destruct (ltb (key y) (key x)); repeat constructor; auto.
Qed.

Lemma Forall_sort_desc {K} (ltb : K -> K -> bool) (key : V -> K) l :
  Forall P l -> Forall P (sort_desc ltb key l).
Proof.
  unfold sort_desc. generalize (@nil V) (Forall_nil_2 P).
  induction l as [|x l IH]; intros acc Hacc Hl; simpl; [exact Hacc|].
  apply Forall_cons in Hl as [Hx Hl].
  apply IH; [|exact Hl]. now apply Forall_insert_desc.
Qed.

Lemma fold_left_invariant {S A} (I : S -> Prop) (f : S -> A -> S) l s :
  (forall s x, I s -> I (f s x)) -> I s -> I (fold_left f l s).
Proof.
  intros Hf. revert s. induction l as [|x l IH]; simpl; intros s Hs; auto.
Qed.

End ForallFacts.

(** *** Link store: recording *)

Section LinkStore.
Implicit Types (links : Store) (a b x y : string) (t : Q).

Lemma half_edge_record_eq links a b t :
  half_edge (_record_direct_link links a b t) a b
  = Some (mkLink (Some t) (Some (next_count (half_edge links a b)))).
Proof.
  unfold _record_direct_link, half_edge, PyDict.mem.
  destruct (PyDict.get links a) as [conns|] eqn:Ha; simpl.
  - rewrite Ha; simpl.
    destruct (PyDict.get conns b) as [e|] eqn:Hb;
      rewrite !get_set_eq; reflexivity.
  - repeat (rewrite get_set_eq; simpl). now rewrite String.eqb_refl.
Qed.

Lemma half_edge_record_ne links a b t x y :
  (x, y) <> (a, b) ->
  half_edge (_record_direct_link links a b t) x y = half_edge links x y.
Proof.
  intros Hne. unfold _record_direct_link, half_edge, PyDict.mem.
  destruct (String.eqb_spec a x) as [->|Hax].
  - assert (Hby : b <> y) by congruence.
    destruct (PyDict.get links x) as [conns|] eqn:Ha; simpl.
    + rewrite Ha; simpl.
      destruct (PyDict.get conns b) as [e|] eqn:Hb;
        rewrite get_set_eq; now apply get_set_ne.
    + repeat (rewrite get_set_eq; simpl).
      destruct (String.eqb_spec b y); [contradiction|reflexivity].
  - destruct (PyDict.get links a) as [conns|] eqn:Ha; simpl.
    + rewrite Ha; simpl.
      destruct (PyDict.get conns b) as [e|] eqn:Hb;
        now rewrite get_set_ne.
    + rewrite get_set_eq; simpl. now rewrite !get_set_ne by assumption.
Qed.

(** The reverse of an absent half-edge is absent in a symmetric store. *)
Lemma symmetric_None links a b :
  symmetric links -> half_edge links a b = None -> half_edge links b a = None.
Proof.
  intros Hsym Hab. destruct (half_edge links b a) as [e|] eqn:Hba; [|reflexivity].
  destruct (Hsym _ _ _ Hba) as (e' & He' & _). congruence.
Qed.

Lemma symmetric_next_count links a b :
  symmetric links ->
  next_count (half_edge links a b) = next_count (half_edge links b a).
Proof.
  intros Hsym. destruct (half_edge links a b) as [e|] eqn:Hab.
  - destruct (Hsym _ _ _ Hab) as (e' & -> & Hc & _). simpl.
    unfold count_or. now rewrite Hc.
  - now rewrite (symmetric_None _ _ _ Hsym Hab).
Qed.

(** Writing both directions together keeps the store symmetric. *)
Lemma record_pair_symmetric links a b t :
  symmetric links ->
  symmetric (_record_direct_link (_record_direct_link links a b t) b a t).
Proof.
  intros Hsym x y e.
  destruct (decide ((x, y) = (b, a))) as [[= -> ->]|Hxy].
  - (* the half-edge b -> a *)
    rewrite half_edge_record_eq. intros [= <-].
    destruct (decide (a = b)) as [->|Hab].
    + rewrite half_edge_record_eq. eauto.
    + rewrite (half_edge_record_ne _ b a t a b) by congruence.
      rewrite !half_edge_record_eq.
      rewrite (half_edge_record_ne _ a b t b a) by congruence.
      rewrite (symmetric_next_count links a b Hsym). eauto.
  - rewrite (half_edge_record_ne _ b a t x y) by assumption.
    destruct (decide ((x, y) = (a, b))) as [[= -> ->]|Hxy'].
    + (* the half-edge a -> b, with a <> b *)
      rewrite half_edge_record_eq. intros [= <-].
      rewrite half_edge_record_eq.
      rewrite (half_edge_record_ne _ a b t b a) by congruence.
      rewrite (symmetric_next_count links a b Hsym). eauto.
    + (* a half-edge the two writes leave alone, and so its reverse *)
      rewrite (half_edge_record_ne _ a b t x y) by assumption.
      intros He.
      rewrite (half_edge_record_ne _ b a t y x) by congruence.
      rewrite (half_edge_record_ne _ a b t y x) by congruence.
      now apply Hsym.
Qed.

Lemma fold_symmetric {A} (f : Store -> A -> Store) (l : list A) links :
  (forall s (u : A), symmetric s -> symmetric (f s u)) ->
  symmetric links -> symmetric (fold_left f l links).
Proof.
  intros Hf. revert links. induction l as [|u l IH]; simpl; intros links Hs.
  - exact Hs.
  - apply IH, Hf, Hs.
Qed.

Lemma rx_loop_body_symmetric path now_ts links i :
  symmetric links -> symmetric (rx_loop_body path now_ts links i).
Proof.
  intros Hs. unfold rx_loop_body.
  destruct (path !! i); [|exact Hs].
  destruct (path !! (i + 1)%nat); [|exact Hs].
  now apply record_pair_symmetric.
Qed.

Lemma process_rx_log_data_symmetric links payload now_ts :
  symmetric links -> symmetric (_process_rx_log_data links payload now_ts).
Proof.
  intros Hs. unfold _process_rx_log_data.
  destruct (_ <? _)%nat; [exact Hs|].
  apply fold_symmetric; [|exact Hs].
  intros s i. apply rx_loop_body_symmetric.
Qed.

End LinkStore.

(** *** Event ingestion *)

Ltac py_unfold :=
  unfold _process_new_contact, _send_greeting, try_except, py_bind, py_ret,
    get_self, modify_self, logger, services_call in *.

(** The new-contact handler leaves the link store alone. *)
Lemma process_new_contact_direct_links payload w :
  Coordinator.direct_links (self (snd (_process_new_contact payload w)))
  = Coordinator.direct_links (self w).
Proof.
  py_unfold; simpl.
  destruct (Coordinator.greet_enabled (self w)); simpl; [|reflexivity].
  destruct (_ =? 2)%Z; simpl; [reflexivity|].
  destruct (negb _ || _); simpl; [reflexivity|].
  destruct (Hass.outcomes (Coordinator.hass (self w))) as [|[msg|] rest];
    simpl; try reflexivity.
  destruct rest as [|[msg|] rest]; reflexivity.
Qed.

Lemma handle_event_symmetric event now_ts w :
  symmetric (Coordinator.direct_links (self w)) ->
  symmetric
    (Coordinator.direct_links (self (snd (_handle_meshcore_event event now_ts w)))).
Proof.
  intros Hs. unfold _handle_meshcore_event.
  destruct (String.eqb _ "EventType.RX_LOG_DATA").
  - simpl. now apply process_rx_log_data_symmetric.
  - destruct (String.eqb _ "EventType.NEW_CONTACT").
    + now rewrite process_new_contact_direct_links.
    + exact Hs.
Qed.

(** C1. Link-store symmetry invariant.  Starting from a symmetric store,
    after the handler has processed any sequence of events (path traces,
    whose consecutive pairs are recorded in both directions, and any
    others), each half-edge [direct_links[a][b]] has its reverse
    [direct_links[b][a]] with equal count and equal last-seen time. *)
Theorem link_store_symmetry_invariant (events : list (Event.t * Q)) (w : World) :
  symmetric (Coordinator.direct_links (self w)) ->
  symmetric (Coordinator.direct_links (self (run_events events w))).
Proof.
  revert w. induction events as [|[event now_ts] events IH]; intros w Hs.
  - exact Hs.
  - simpl. apply IH. now apply handle_event_symmetric.
Qed.

(** The scan by index of [_process_rx_log_data] visits the consecutive
    pairs of the path, in order. *)
Lemma rx_loop_pairs path now_ts :
  forall l k links,
    drop k path = l ->
    fold_left (rx_loop_body path now_ts) (seq k (length l - 1)) links
    = fold_left (record_both now_ts) (consecutive_pairs l) links.
Proof.
  induction l as [|a l IH]; intros k links Hdrop; [reflexivity|].
  destruct l as [|b l]; [reflexivity|].
  assert (Ha : path !! k = Some a).
  { replace k with (k + 0)%nat by lia. rewrite <- lookup_drop, Hdrop. reflexivity. }
  assert (Hb : path !! (k + 1)%nat = Some b).
  { rewrite <- lookup_drop, Hdrop. reflexivity. }
  assert (Hdrop' : drop (S k) path = b :: l).
  { replace (S k) with (k + 1)%nat by lia. rewrite <- drop_drop, Hdrop. reflexivity. }
  replace (length (a :: b :: l) - 1)%nat with (S (length (b :: l) - 1)) by (simpl; lia).
  cbn [seq fold_left]. unfold rx_loop_body at 2. rewrite Ha, Hb.
  rewrite (IH (S k) _ Hdrop'). reflexivity.
Qed.

Lemma process_rx_log_data_pairs links payload now_ts :
  _process_rx_log_data links payload now_ts
  = fold_left (record_both now_ts) (consecutive_pairs (path_of payload)) links.
Proof.
  unfold _process_rx_log_data. fold (path_of payload).
  set (path := path_of payload).
  destruct (Nat.ltb_spec (length path) 2) as [Hlt|Hge].
  - destruct path as [|a [|b path]]; simpl in Hlt; try lia; reflexivity.
  - now apply rx_loop_pairs.
Qed.

(** A half-edge stamped by this event keeps the stamp while the rest of
    the path is recorded. *)
Lemma record_keeps_stamp now_ts links a b x y :
  stamped now_ts links x y ->
  stamped now_ts (_record_direct_link links a b now_ts) x y.
Proof.
  intros [c Hc]. unfold stamped.
  destruct (decide ((x, y) = (a, b))) as [[= -> ->]|Hne].
  - rewrite half_edge_record_eq. eauto.
  - rewrite half_edge_record_ne by assumption. eauto.
Qed.

Lemma record_both_keeps_stamp now_ts links pair x y :
  stamped now_ts links x y -> stamped now_ts (record_both now_ts links pair) x y.
Proof. intros H. unfold record_both. now do 2 apply record_keeps_stamp. Qed.

Lemma record_both_stamps now_ts links a b :
  stamped now_ts (record_both now_ts links (a, b)) (PyStr.lower a) (PyStr.lower b)
  /\ stamped now_ts (record_both now_ts links (a, b)) (PyStr.lower b) (PyStr.lower a).
Proof.
  unfold record_both; simpl. split.
  - apply record_keeps_stamp. unfold stamped. rewrite half_edge_record_eq. eauto.
  - unfold stamped. rewrite half_edge_record_eq. eauto.
Qed.

Lemma fold_record_both_keeps now_ts pairs links x y :
  stamped now_ts links x y ->
  stamped now_ts (fold_left (record_both now_ts) pairs links) x y.
Proof.
  revert links. induction pairs as [|p pairs IH]; intros links H; simpl.
  - exact H.
  - apply IH. now apply record_both_keeps_stamp.
Qed.

Lemma fold_record_both_stamps now_ts pairs links a b :
  (a, b) ∈ pairs ->
  let links' := fold_left (record_both now_ts) pairs links in
  stamped now_ts links' (PyStr.lower a) (PyStr.lower b)
  /\ stamped now_ts links' (PyStr.lower b) (PyStr.lower a).
Proof.
  revert links. induction pairs as [|p pairs IH]; intros links Hin; simpl.
  - now apply elem_of_nil in Hin.
  - apply elem_of_cons in Hin as [<-|Hin].
    + destruct (record_both_stamps now_ts links a b).
      split; now apply fold_record_both_keeps.
    + now apply IH.
Qed.

(** C2. Path-trace ingestion.  An event whose node sequence has fewer
    than two entries leaves the link store unchanged.  Otherwise the
    handler records every consecutive pair of the sequence, in order, in
    both directions: one recording inserts the half-edge with count 1 or
    adds 1 to its count, sets its last-seen time to the event's
    timestamp and touches no other half-edge, so that after the event
    both half-edges of every consecutive pair carry the event's
    timestamp.  On the empty store the trace aa, bb, cc at 1000 gives
    aa<->bb and bb<->cc with count 1 and last-seen 1000, the same trace
    again at 2000 gives count 2 and last-seen 2000, and no edge aa<->cc
    appears. *)
Theorem path_trace_ingestion :
  (forall links payload now_ts,
      (length (path_of payload) < 2)%nat ->
      _process_rx_log_data links payload now_ts = links)
  /\ (forall links payload now_ts,
        _process_rx_log_data links payload now_ts
        = fold_left (record_both now_ts) (consecutive_pairs (path_of payload)) links)
  /\ (forall links a b t,
        half_edge (_record_direct_link links a b t) a b
        = Some (mkLink (Some t) (Some (next_count (half_edge links a b))))
        /\ forall x y, (x, y) <> (a, b) ->
             half_edge (_record_direct_link links a b t) x y = half_edge links x y)
  /\ (forall links payload now_ts a b,
        (a, b) ∈ consecutive_pairs (path_of payload) ->
        let links' := _process_rx_log_data links payload now_ts in
        stamped now_ts links' (PyStr.lower a) (PyStr.lower b)
        /\ stamped now_ts links' (PyStr.lower b) (PyStr.lower a))
  /\ (let aa := "aa1111111111" in
      let bb := "bb2222222222" in
      let cc := "cc3333333333" in
      let trace := trace_payload [aa; bb; cc] in
      let s1 := _process_rx_log_data [] trace 1000 in
      let s2 := _process_rx_log_data s1 trace 2000 in
      (half_edge s1 aa bb = Some (mkLink (Some 1000%Q) (Some 1))
       /\ half_edge s1 bb aa = Some (mkLink (Some 1000%Q) (Some 1))
       /\ half_edge s1 bb cc = Some (mkLink (Some 1000%Q) (Some 1))
       /\ half_edge s1 cc bb = Some (mkLink (Some 1000%Q) (Some 1))
       /\ half_edge s1 aa cc = None /\ half_edge s1 cc aa = None)
      /\ (half_edge s2 aa bb = Some (mkLink (Some 2000%Q) (Some 2))
          /\ half_edge s2 bb aa = Some (mkLink (Some 2000%Q) (Some 2))
          /\ half_edge s2 bb cc = Some (mkLink (Some 2000%Q) (Some 2))
          /\ half_edge s2 cc bb = Some (mkLink (Some 2000%Q) (Some 2))
          /\ half_edge s2 aa cc = None /\ half_edge s2 cc aa = None)).
Proof.
  split; [|split; [|split; [|split]]].
  - intros links payload now_ts Hlen. unfold _process_rx_log_data.
    fold (path_of payload).
    destruct (Nat.ltb_spec (length (path_of payload)) 2); [reflexivity|lia].
  - apply process_rx_log_data_pairs.
  - intros links a b t. split.
    + apply half_edge_record_eq.
    + intros x y. apply half_edge_record_ne.
  - intros links payload now_ts a b Hin. cbv zeta.
    rewrite process_rx_log_data_pairs. now apply fold_record_both_stamps.
  - vm_compute. repeat split; reflexivity.
Qed.

Lemma path_trace_ingestion_witness :
  _process_rx_log_data [] (trace_payload ["aa1111111111"]) 1000 = [].
Proof.
  apply (proj1 path_trace_ingestion). simpl. lia.
Defined.

Lemma link_store_symmetry_invariant_witness :
  symmetric
    (Coordinator.direct_links
       (self
          (run_events
             [(Event.mk (Some "EventType.RX_LOG_DATA")
                 (Some (trace_payload ["aa1111111111"; "bb2222222222"])), 1000%Q)]
             (mkWorld (Coordinator.mk (Hass.mk [] [] []) "Me" true [] [] ∅) [])))).
Proof.
  apply link_store_symmetry_invariant. simpl.
  intros a b e H. discriminate H.
Defined.

(** *** Retention pass *)

Lemma clean_connections_filter now_ts (connections : PyDict.t Link) :
  PyDict.wf connections ->
  clean_connections now_ts connections
  = List.filter (fun kv => retained now_ts (snd kv)) connections.
Proof.
  intros Hwf. unfold clean_connections, PyDict.items.
  exact (rebuild_filter (retained now_ts) connections [] Hwf).
Qed.

Lemma clean_links_acc now_ts a (links acc : Store) :
  NoDup (PyDict.keys acc ++ PyDict.keys links) ->
  PyDict.get
    (fold_left
       (fun cleaned_links '(node_a, connections) =>
          let cleaned_connections := clean_connections now_ts connections in
          match cleaned_connections with
          | [] => cleaned_links
          | _ :: _ => PyDict.set cleaned_links node_a cleaned_connections
          end)
       links acc) a
  = match PyDict.get acc a with
    | Some c => Some c
    | None => PyDict.get links a ≫= surviving now_ts
    end.
Proof.
  revert acc. induction links as [|[k conns] links IH]; intros acc Hnd.
  - simpl. now destruct (PyDict.get acc a).
  - simpl in Hnd.
    assert (Hk : k ∉ PyDict.keys acc).
    { apply NoDup_app in Hnd as (_ & Hdis & _).
      intros Hin. apply (Hdis k Hin). apply list_elem_of_here. }
    assert (Hk' : k ∉ PyDict.keys links).
    { apply NoDup_app in Hnd as (_ & _ & Hd). now apply NoDup_cons in Hd as [? _]. }
    assert (Hnd' : NoDup (PyDict.keys acc ++ PyDict.keys links)).
    { apply NoDup_app in Hnd as (Ha & Hdis & Hd).
      apply NoDup_cons in Hd as [_ Hd].
      apply NoDup_app. repeat split; [assumption| |assumption].
      intros x Hx Hx'. apply (Hdis x Hx). now apply list_elem_of_further. }
    cbn [fold_left]. cbv zeta. unfold surviving at 1.
    cbn [PyDict.get].
    destruct (clean_connections now_ts conns) as [|c cs] eqn:Hclean.
    + rewrite IH by assumption.
      destruct (PyDict.get acc a) eqn:Hacc; [reflexivity|].
      destruct (String.eqb_spec k a) as [->|Hne]; [|reflexivity].
      apply get_None_keys in Hk'. rewrite Hk'. simpl.
      unfold surviving. now rewrite Hclean.
    + rewrite IH.
      * destruct (String.eqb_spec k a) as [->|Hne].
        -- rewrite get_set_eq. apply get_None_keys in Hk. rewrite Hk. simpl.
           unfold surviving. now rewrite Hclean.
        -- now rewrite get_set_ne.
      * rewrite set_fresh by assumption. rewrite keys_app. simpl.
        rewrite <- app_assoc. exact Hnd.
Qed.

Lemma get_clean_links now_ts (links : Store) a :
  PyDict.wf links ->
  PyDict.get (clean_links now_ts links) a
  = PyDict.get links a ≫= surviving now_ts.
Proof.
  intros Hwf. unfold clean_links, PyDict.items.
  now rewrite clean_links_acc.
Qed.

Lemma store_wf_get (links : Store) a conns :
  store_wf links -> PyDict.get links a = Some conns -> PyDict.wf conns.
Proof.
  intros [_ Hall] Hget. exact (Forall_values_get PyDict.wf _ _ _ Hall Hget).
Qed.

(** A half-edge survives the pass exactly when it passes the retention
    test. *)
Lemma half_edge_clean_links now_ts (links : Store) a b :
  store_wf links ->
  half_edge (clean_links now_ts links) a b
  = half_edge links a b ≫= (fun e => if retained now_ts e then Some e else None).
Proof.
  intros Hwf. unfold half_edge.
  rewrite get_clean_links by apply Hwf.
  destruct (PyDict.get links a) as [conns|] eqn:Ha; simpl; [|reflexivity].
  pose proof (store_wf_get _ _ _ Hwf Ha) as Hc.
  unfold surviving.
  pose proof (get_filter (retained now_ts) conns b Hc) as Hf.
  rewrite <- clean_connections_filter in Hf by assumption.
  destruct (clean_connections now_ts conns) as [|c cs].
  - simpl in Hf. destruct (PyDict.get conns b) as [e|]; simpl; [|reflexivity].
    destruct (retained now_ts e); [discriminate|reflexivity].
  - rewrite Hf. now destruct (PyDict.get conns b).
Qed.

Lemma retained_spec now_ts e :
  retained now_ts e = true <-> (now_ts - max_age <= last_seen_or_0 e)%Q.
Proof.
  unfold retained. rewrite Qle_bool_iff. split; intros H; lra.
Qed.

(** *** The dictionary invariant of the store *)

Section WellFormed.
Context {V : Type}.
Implicit Types (d : PyDict.t V) (k : string) (v : V).

Lemma elem_keys_set d k v x :
  x ∈ PyDict.keys (PyDict.set d k v) <-> x = k \/ x ∈ PyDict.keys d.
Proof.
  induction d as [|[k' v'] d IH]; simpl.
  - rewrite list_elem_of_singleton. split; [auto|].
    intros [H|H]; [exact H|now apply elem_of_nil in H].
  - destruct (String.eqb_spec k' k) as [->|Hne]; simpl.
    + rewrite elem_of_cons. tauto.
    + rewrite !elem_of_cons, IH. tauto.
Qed.

Lemma wf_set d k v : PyDict.wf d -> PyDict.wf (PyDict.set d k v).
Proof.
  unfold PyDict.wf. induction d as [|[k' v'] d IH]; simpl; intros Hwf.
  - apply NoDup_singleton.
  - apply NoDup_cons in Hwf as [Hk' Hwf].
    destruct (String.eqb_spec k' k) as [->|Hne]; simpl.
    + apply NoDup_cons. split; assumption.
    + apply NoDup_cons. split; [|now apply IH].
      change (k' ∉ PyDict.keys (PyDict.set d k v)).
      rewrite elem_keys_set. intros [H|H]; [congruence|contradiction].
Qed.

Lemma wf_nil : PyDict.wf (@nil (string * V)).
Proof. apply NoDup_nil_2. Qed.

End WellFormed.

Lemma store_wf_set (links : Store) a conns :
  store_wf links -> PyDict.wf conns -> store_wf (PyDict.set links a conns).
Proof.
  intros [Hwf Hall] Hc. split; [now apply wf_set|now apply Forall_values_set].
Qed.

Lemma store_wf_record links a b t :
  store_wf links -> store_wf (_record_direct_link links a b t).
Proof.
  intros Hwf. unfold _record_direct_link.
  set (links1 := if negb _ then _ else _).
  assert (Hwf1 : store_wf links1).
  { unfold links1. destruct (negb _); [|exact Hwf].
    apply store_wf_set; [exact Hwf|apply wf_nil]. }
  assert (Hc : PyDict.wf (default [] (PyDict.get links1 a))).
  { destruct (PyDict.get links1 a) as [conns|] eqn:Ha; simpl.
    - exact (store_wf_get _ _ _ Hwf1 Ha).
    - apply wf_nil. }
  destruct (PyDict.get _ b); apply store_wf_set; try assumption;
    now apply wf_set.
Qed.

Lemma store_wf_process_rx_log_data links payload now_ts :
  store_wf links -> store_wf (_process_rx_log_data links payload now_ts).
Proof.
  intros Hwf. rewrite process_rx_log_data_pairs.
  apply (fold_left_invariant store_wf); [|exact Hwf].
  intros s pair Hs. unfold record_both. now do 2 apply store_wf_record.
Qed.



(** The invariant holds of every store the handler reaches. *)
Lemma store_wf_run_events events w :
  store_wf (Coordinator.direct_links (self w)) ->
  store_wf (Coordinator.direct_links (self (run_events events w))).
Proof.
  revert w. induction events as [|[event now_ts] events IH]; intros w Hwf.
  - exact Hwf.
  - simpl. apply IH. unfold _handle_meshcore_event.
    destruct (String.eqb _ "EventType.RX_LOG_DATA").
    + simpl. now apply store_wf_process_rx_log_data.
    + destruct (String.eqb _ "EventType.NEW_CONTACT").
      * now rewrite process_new_contact_direct_links.
      * exact Hwf.
Qed.

Lemma max_age_seconds : max_age = 604800%Q.
Proof. reflexivity. Qed.

Lemma retained_same_last_seen now_ts e e' :
  last_seen e' = last_seen e -> retained now_ts e' = retained now_ts e.
Proof. intros H. unfold retained, last_seen_or_0. now rewrite H. Qed.

Lemma clean_links_symmetric now_ts (links : Store) :
  store_wf links -> symmetric links -> symmetric (clean_links now_ts links).
Proof.
  intros Hwf Hsym a b e.
  rewrite !half_edge_clean_links by assumption.
  destruct (half_edge links a b) as [e0|] eqn:Hab; simpl; [|discriminate].
  destruct (retained now_ts e0) eqn:Hret; [|discriminate].
  intros [= <-].
  destruct (Hsym _ _ _ Hab) as (e' & -> & Hc & Hl). simpl.
  rewrite (retained_same_last_seen now_ts e0 e' Hl), Hret. eauto.
Qed.

(** C3. Pruning at save.  After the 7-day retention pass of
    [_save_persisted_data] the surviving half-edges are the half-edges of
    the input store whose last-seen time is not older than [now] minus 7
    days (604800 seconds); no source node is left with an empty set of
    destinations, a source node none of whose half-edges is retained is
    removed entirely; and a symmetric input store gives a symmetric
    surviving store. *)
Theorem pruning_at_save (c : Coordinator.t) (now_ts : Q) :
  store_wf (Coordinator.direct_links c) ->
  let links := Coordinator.direct_links c in
  let links' := Coordinator.direct_links (_save_persisted_data c now_ts) in
  (forall a b e,
      half_edge links' a b = Some e ->
      half_edge links a b = Some e
      /\ ~ (last_seen_or_0 e < now_ts - 604800)%Q)
  /\ (forall a b e,
        half_edge links a b = Some e ->
        (now_ts - 604800 <= last_seen_or_0 e)%Q ->
        half_edge links' a b = Some e)
  /\ (forall a conns, PyDict.get links' a = Some conns -> conns <> [])
  /\ (forall a conns,
        PyDict.get links a = Some conns ->
        (forall b e, PyDict.get conns b = Some e -> retained now_ts e = false) ->
        PyDict.get links' a = None)
  /\ (symmetric links -> symmetric links').
Proof.
  intros Hwf links links'.
  assert (Hl : links' = clean_links now_ts links) by reflexivity.
  rewrite Hl. clear Hl links'.
  split; [|split; [|split; [|split]]].
  - intros a b e. rewrite half_edge_clean_links by assumption.
    destruct (half_edge links a b) as [e0|]; simpl; [|discriminate].
    destruct (retained now_ts e0) eqn:Hret; [|discriminate].
    intros [= <-]. split; [reflexivity|].
    apply retained_spec in Hret. rewrite max_age_seconds in Hret. lra.
  - intros a b e Hab Hfresh. rewrite half_edge_clean_links by assumption.
    rewrite Hab; simpl.
    rewrite <- max_age_seconds in Hfresh. apply retained_spec in Hfresh.
    now rewrite Hfresh.
  - intros a conns. rewrite get_clean_links by apply Hwf.
    destruct (PyDict.get links a) as [conns0|]; simpl; [|discriminate].
    unfold surviving. destruct (clean_connections now_ts conns0); [discriminate|].
    now intros [= <-].
  - intros a conns Ha Hstale. rewrite get_clean_links by apply Hwf.
    rewrite Ha; simpl. unfold surviving.
    pose proof (store_wf_get _ _ _ Hwf Ha) as Hc.
    rewrite clean_connections_filter by assumption.
    destruct (List.filter _ conns) as [|[k v] cs] eqn:Hf; [reflexivity|].
    assert (Hin : In (k, v) (List.filter (fun kv => retained now_ts (snd kv)) conns)).
    { rewrite Hf. now left. }
    apply filter_In in Hin as [Hin Hret]. simpl in Hret.
    apply list_elem_of_In in Hin. apply (elem_get_Some _ _ _ Hc) in Hin.
    rewrite (Hstale _ _ Hin) in Hret. discriminate.
  - now apply clean_links_symmetric.
Qed.

Lemma pruning_at_save_witness :
  let c :=
    Coordinator.mk (Hass.mk [] [] []) "Me" true
      [("aa", [("bb", mkLink (Some 1000%Q) (Some 1));
               ("cc", mkLink (Some 900000%Q) (Some 4))]);
       ("bb", [("aa", mkLink (Some 1000%Q) (Some 1))]);
       ("cc", [("aa", mkLink (Some 900000%Q) (Some 4))])]
      [] ∅ in
  let links' := Coordinator.direct_links (_save_persisted_data c 1000000) in
  half_edge links' "aa" "cc" = Some (mkLink (Some 900000%Q) (Some 4))
  /\ PyDict.get links' "bb" = None.
Proof.
  intros c links'.
  assert (Hwf : store_wf (Coordinator.direct_links c)).
  { unfold store_wf, PyDict.wf. simpl.
    split; [|repeat constructor]; simpl;
      apply (bool_decide_unpack _); vm_compute; exact I. }
  destruct (pruning_at_save c 1000000 Hwf) as (_ & Hkeep & _ & Hgone & _).
  split.
  - apply Hkeep; [reflexivity|]. unfold Qle; simpl; lia.
  - apply (Hgone "bb" [("aa", mkLink (Some 1000%Q) (Some 1))]); [reflexivity|].
    intros b e. cbn [PyDict.get].
    destruct (String.eqb "aa" b); intros H;
      [injection H as <-; reflexivity|discriminate H].
Defined.

(** *** Node resolver *)

Lemma node_info_loop_body_spec prefix matches state :
  node_info_loop_body prefix matches state
  = matches ++ (if is_candidate prefix state then [node_of state] else []).
Proof.
  unfold node_info_loop_body, is_candidate, has_coordinates, node_of,
    effective_lat, effective_lon, identity.
  destruct (is_contact_sensor state); simpl; [|now rewrite app_nil_r].
  destruct (PyStr.truthy _ && PyStr.startswith _ _); simpl;
    [|now rewrite app_nil_r].
  destruct (coord_truthy _ && coord_truthy _); [reflexivity|now rewrite app_nil_r].
Qed.

(** The scan collects the candidates, in the order of the states. *)
Lemma node_info_scan prefix states acc :
  fold_left (node_info_loop_body prefix) states acc
  = acc ++ map node_of (List.filter (is_candidate prefix) states).
Proof.
  revert acc. induction states as [|st states IH]; intros acc; simpl.
  - now rewrite app_nil_r.
  - rewrite IH, node_info_loop_body_spec.
    destruct (is_candidate prefix st); simpl.
    + now rewrite <- app_assoc.
    + now rewrite app_nil_r.
Qed.

Section SortHead.
Context {A : Type} (key : A -> Q).

Lemma head_insert_desc x l :
  head (insert_desc Qlt_bool key x l) = better key (head l) x.
Proof.
  destruct l as [|y l]; simpl; [reflexivity|].
  unfold better; simpl. now destruct (Qlt_bool (key y) (key x)).
Qed.

Lemma head_sort_fold l acc :
  head (fold_left (fun sorted x => insert_desc Qlt_bool key x sorted) l acc)
  = fold_left (better key) l (head acc).
Proof.
  revert acc. induction l as [|x l IH]; intros acc; simpl; [reflexivity|].
  now rewrite IH, head_insert_desc.
Qed.

Lemma Qlt_bool_spec a b : Qlt_bool a b = true <-> (a < b)%Q.
Proof.
  unfold Qlt_bool. rewrite negb_true_iff.
  destruct (Qle_bool b a) eqn:H.
  - apply Qle_bool_iff in H. split; [discriminate|intros; lra].
  - split; [intros _|reflexivity].
    destruct (Qlt_le_dec a b) as [|Hle]; [assumption|].
    apply Qle_bool_iff in Hle. congruence.
Qed.

Lemma Qlt_bool_false a b : Qlt_bool a b = false <-> (b <= a)%Q.
Proof.
  unfold Qlt_bool. rewrite negb_false_iff. apply Qle_bool_iff.
Qed.

End SortHead.

Lemma better_first_latest l :
  forall pre m,
    first_latest pre m ->
    exists m', fold_left (better NodeInfo.last_advert) l (Some m) = Some m'
               /\ first_latest (pre ++ l) m'.
Proof.
  induction l as [|x l IH]; intros pre m Hm; simpl.
  - exists m. now rewrite app_nil_r.
  - unfold better at 2.
    replace (pre ++ x :: l) with ((pre ++ [x]) ++ l) by now rewrite <- app_assoc.
    apply IH.
    destruct Hm as (before & after & -> & Hb & Ha).
    destruct (Qlt_bool (NodeInfo.last_advert m) (NodeInfo.last_advert x)) eqn:Hlt.
    + apply Qlt_bool_spec in Hlt.
      exists (before ++ m :: after), []. split; [reflexivity|]. split; [|constructor].
      apply Forall_app. split; [|constructor].
      * eapply Forall_impl; [exact Hb|]. simpl. intros y Hy. lra.
      * exact Hlt.
      * eapply Forall_impl; [exact Ha|]. simpl. intros y Hy. lra.
    + apply Qlt_bool_false in Hlt.
      exists before, (after ++ [x]). split; [now rewrite <- app_assoc|].
      split; [exact Hb|]. apply Forall_app. split; [exact Ha|].
      constructor; [exact Hlt|constructor].
Qed.

(** Sorting by descending [last_advert] puts first the record with the
    latest [last_advert], and among equals the one that came first. *)
Lemma head_sort_desc_first_latest x pool :
  exists m, head (sort_desc Qlt_bool NodeInfo.last_advert (x :: pool)) = Some m
            /\ first_latest (x :: pool) m.
Proof.
  unfold sort_desc. rewrite head_sort_fold. simpl. unfold better at 2.
  apply (better_first_latest pool [x] x).
  exists [], []. repeat split; constructor.
Qed.


(** *** Coordinates *)

Lemma num_truthy_false x : num_truthy x = false <-> (x == 0)%Q.
Proof. unfold num_truthy. rewrite negb_false_iff. apply Qeq_bool_iff. Qed.

Lemma num_truthy_true x : num_truthy x = true <-> ~ (x == 0)%Q.
Proof.
  rewrite <- num_truthy_false. destruct (num_truthy x); split; congruence.
Qed.

Lemma coord_truthy_false c : coord_truthy c = false <-> blank c.
Proof.
  destruct c as [| |x|s x]; simpl.
  - split; auto.
  - split; auto.
  - apply num_truthy_false.
  - destruct s; simpl; split; congruence.
Qed.

Lemma coord_or_blank a b : blank (coord_or a b) <-> blank a /\ blank b.
Proof.
  rewrite <- !coord_truthy_false. unfold coord_or.
  destruct (coord_truthy a) eqn:Ha; rewrite ?Ha.
  - split; [intros H|intros [H _]]; discriminate H.
  - split; [intros H; split; [reflexivity|exact H]|intros [_ H]; exact H].
Qed.

Lemma coord_truthy_float c :
  as_number c -> coord_truthy c = true -> ~ (float c == 0)%Q.
Proof.
  destruct c as [| |x|s x]; simpl; try discriminate.
  - intros _. apply num_truthy_true.
  - intros ->. discriminate.
Qed.

Lemma coord_or_as_number a b :
  as_number a -> as_number b -> as_number (coord_or a b).
Proof. intros Ha Hb. unfold coord_or. now destruct (coord_truthy a). Qed.

Lemma has_coordinates_located state :
  coordinates_as_numbers state ->
  has_coordinates state = true ->
  located (float (effective_lat (State.attributes state)))
          (float (effective_lon (State.attributes state))).
Proof.
  intros (Ha & Hb & Hc & Hd).
  unfold has_coordinates. rewrite andb_true_iff. intros [Hlat Hlon].
  split; apply coord_truthy_float; try assumption;
    now apply coord_or_as_number.
Qed.

(** A record is without coordinates exactly when its latitude or its
    longitude is blank in both attributes that may carry it. *)
Lemma has_coordinates_false state :
  has_coordinates state = false <->
  (blank (Attr.adv_lat (State.attributes state))
   /\ blank (Attr.latitude (State.attributes state)))
  \/ (blank (Attr.adv_lon (State.attributes state))
      /\ blank (Attr.longitude (State.attributes state))).
Proof.
  unfold has_coordinates. rewrite andb_false_iff, !coord_truthy_false.
  unfold effective_lat, effective_lon. now rewrite !coord_or_blank.
Qed.

Lemma is_candidate_has_coordinates prefix state :
  is_candidate prefix state = true -> has_coordinates state = true.
Proof. unfold is_candidate. rewrite !andb_true_iff. tauto. Qed.

Lemma filter_filter_implied {A} (f g : A -> bool) (l : list A) :
  (forall x, f x = true -> g x = true) ->
  List.filter f (List.filter g l) = List.filter f l.
Proof.
  intros Hfg. induction l as [|x l IH]; simpl; [reflexivity|].
  destruct (g x) eqn:Hg; simpl.
  - now rewrite IH.
  - destruct (f x) eqn:Hf; [|exact IH].
    apply Hfg in Hf. congruence.
Qed.

Lemma get_node_info_ignores_blank states prefix :
  _get_node_info states prefix
  = _get_node_info (List.filter has_coordinates states) prefix.
Proof.
  unfold _get_node_info. rewrite !node_info_scan.
  rewrite filter_filter_implied; [reflexivity|].
  intros st. apply is_candidate_has_coordinates.
Qed.

Lemma first_latest_elem pool m : first_latest pool m -> m ∈ pool.
Proof.
  intros (before & after & -> & _). apply elem_of_app. right.
  apply list_elem_of_here.
Qed.

Lemma preferred_subset cands m : m ∈ preferred cands -> m ∈ cands.
Proof.
  unfold preferred.
  destruct (List.filter is_repeater cands) as [|r rs] eqn:Hf; [tauto|].
  rewrite <- Hf. rewrite !list_elem_of_In, filter_In. tauto.
Qed.

(** What the resolver returns is the resolved node of a candidate. *)
Lemma get_node_info_candidate states prefix m :
  _get_node_info states prefix = Some m ->
  exists state, state ∈ states /\ is_candidate prefix state = true
                /\ m = node_of state.
Proof.
  intros Hm.
  assert (Hin : m ∈ map node_of (List.filter (is_candidate prefix) states)).
  { unfold _get_node_info in Hm. rewrite node_info_scan in Hm. simpl in Hm.
    destruct (map node_of _) as [|m1 [|m2 rest]] eqn:Hcands.
    - discriminate Hm.
    - injection Hm as <-. apply list_elem_of_here.
    - apply preferred_subset. unfold preferred.
      destruct (List.filter is_repeater (m1 :: m2 :: rest)) as [|r rs].
      + destruct (head_sort_desc_first_latest m1 (m2 :: rest)) as (m' & Hm' & Hfl).
        rewrite Hm' in Hm. injection Hm as <-. now apply first_latest_elem.
      + destruct (head_sort_desc_first_latest r rs) as (m' & Hm' & Hfl).
        rewrite Hm' in Hm. injection Hm as <-. now apply first_latest_elem. }
  apply list_elem_of_In, in_map_iff in Hin as (st & <- & Hst).
  apply filter_In in Hst as [Hst Hcand].
  exists st. rewrite list_elem_of_In. auto.
Qed.

Lemma nodemap_loop_body_spec now_ts threshold_sec nodes_list state :
  nodemap_loop_body now_ts threshold_sec nodes_list state
  = nodes_list ++ (if nodemap_selected now_ts threshold_sec state
                   then [map_node_of now_ts state] else []).
Proof.
  unfold nodemap_loop_body, nodemap_selected, has_coordinates, map_node_of,
    effective_lat, effective_lon.
  destruct (is_contact_sensor state); simpl; [|now rewrite app_nil_r].
  destruct (negb _ || _); simpl; [now rewrite app_nil_r|].
  destruct (coord_truthy _ && coord_truthy _); [reflexivity|now rewrite app_nil_r].
Qed.

Lemma nodemap_scan now_ts threshold_sec states acc :
  fold_left (nodemap_loop_body now_ts threshold_sec) states acc
  = acc ++ map (map_node_of now_ts)
             (List.filter (nodemap_selected now_ts threshold_sec) states).
Proof.
  revert acc. induction states as [|st states IH]; intros acc; simpl.
  - now rewrite app_nil_r.
  - rewrite IH, nodemap_loop_body_spec.
    destruct (nodemap_selected now_ts threshold_sec st); simpl.
    + now rewrite <- app_assoc.
    + now rewrite app_nil_r.
Qed.

Lemma nodemap_selected_has_coordinates now_ts threshold_sec state :
  nodemap_selected now_ts threshold_sec state = true ->
  has_coordinates state = true.
Proof. unfold nodemap_selected. rewrite !andb_true_iff. tauto. Qed.

Lemma get_node_info_located states prefix m :
  Forall coordinates_as_numbers states ->
  _get_node_info states prefix = Some m ->
  located (NodeInfo.lat m) (NodeInfo.lon m).
Proof.
  intros Hnum Hm. apply get_node_info_candidate in Hm as (st & Hin & Hc & ->).
  apply is_candidate_has_coordinates in Hc.
  apply has_coordinates_located; [|exact Hc].
  rewrite Forall_forall in Hnum. now apply Hnum.
Qed.


(** *** Positions in the exports *)

Lemma heatmap_count_node_located node_data node_info :
  located (NodeInfo.lat node_info) (NodeInfo.lon node_info) ->
  Forall heat_located (PyDict.values node_data) ->
  Forall heat_located (PyDict.values (heatmap_count_node node_data node_info)).
Proof.
  intros Hloc Hd. unfold heatmap_count_node.
  set (d := if negb _ then _ else _).
  assert (Hd' : Forall heat_located (PyDict.values d)).
  { unfold d. destruct (negb _); [|exact Hd]. now apply Forall_values_set. }
  destruct (PyDict.get d _) as [n|] eqn:Hn; [|exact Hd'].
  apply Forall_values_set; [exact Hd'|].
  exact (Forall_values_get heat_located _ _ _ Hd' Hn).
Qed.

Lemma heatmap_nodes_located states now_ts :
  Forall coordinates_as_numbers states ->
  Forall heat_located (heatmap_nodes (_export_heatmap_data states now_ts)).
Proof.
  intros Hnum. unfold _export_heatmap_data; simpl. apply Forall_sort_desc.
  apply (fold_left_invariant (fun d => Forall heat_located (PyDict.values d)));
    [|constructor].
  intros d st Hd. unfold heatmap_loop_body.
  destruct (negb (PyStr.contains _ _)); [exact Hd|].
  destruct (negb _ || _); [exact Hd|].
  apply (fold_left_invariant (fun d => Forall heat_located (PyDict.values d)));
    [|exact Hd].
  clear d Hd. intros d node_prefix Hd. unfold heatmap_path_body.
  destruct (_get_node_info states node_prefix) as [m|] eqn:Hm; [|exact Hd].
  apply heatmap_count_node_located; [|exact Hd].
  exact (get_node_info_located _ _ _ Hnum Hm).
Qed.

Lemma track_node_located node_data node_info :
  located (NodeInfo.lat node_info) (NodeInfo.lon node_info) ->
  Forall node_located (PyDict.values node_data) ->
  Forall node_located (PyDict.values (track_node node_data node_info)).
Proof.
  intros Hloc Hd. unfold track_node.
  set (d := if negb _ then _ else _).
  assert (Hd' : Forall node_located (PyDict.values d)).
  { unfold d. destruct (negb _); [|exact Hd]. now apply Forall_values_set. }
  destruct (PyDict.get d _) as [n|] eqn:Hn; [|exact Hd'].
  apply Forall_values_set; [exact Hd'|].
  exact (Forall_values_get node_located _ _ _ Hd' Hn).
Qed.

Lemma merge_existing_located link_key c link_data :
  Forall link_located link_data ->
  Forall link_located (snd (merge_existing link_key c link_data)).
Proof.
  induction link_data as [|link rest IH]; simpl; intros Hl; [constructor|].
  apply Forall_cons in Hl as [Hlink Hrest].
  destruct (key_eqb _ _); simpl.
  - constructor; [exact Hlink|exact Hrest].
  - destruct (merge_existing link_key c rest) as [existing rest'] eqn:Hm.
    simpl in *. constructor; [exact Hlink|now apply IH].
Qed.

Lemma add_link_located link_data a_info b_info link_info :
  located (NodeInfo.lat a_info) (NodeInfo.lon a_info) ->
  located (NodeInfo.lat b_info) (NodeInfo.lon b_info) ->
  Forall link_located link_data ->
  Forall link_located (add_link link_data a_info b_info link_info).
Proof.
  intros Ha Hb Hl. unfold add_link.
  pose proof (merge_existing_located
                (PyStr.sorted2 (NodeInfo.pubkey a_info) (NodeInfo.pubkey b_info))
                (count_or 1 link_info) link_data Hl) as Hm.
  destruct (merge_existing _ _ link_data) as [existing link_data'].
  simpl in Hm. destruct existing; simpl; [exact Hm|].
  apply Forall_app. split; [exact Hm|].
  constructor; [split; assumption|constructor].
Qed.

Lemma directlinks_collect_located states links now_ts threshold_sec :
  Forall coordinates_as_numbers states ->
  let '(node_data, link_data) :=
    directlinks_collect states links now_ts threshold_sec in
  Forall node_located (PyDict.values node_data)
  /\ Forall link_located link_data.
Proof.
  intros Hnum. unfold directlinks_collect.
  apply (fold_left_invariant
           (fun acc : PyDict.t LinkNode.t * list LinkEntry.t =>
              let '(node_data, link_data) := acc in
              Forall node_located (PyDict.values node_data)
              /\ Forall link_located link_data));
    [|split; constructor].
  intros acc [a_prefix conns] Hacc. unfold directlinks_outer_body.
  destruct (_get_node_info states a_prefix) as [a_info|] eqn:Ha; [|exact Hacc].
  apply (get_node_info_located _ _ _ Hnum) in Ha.
  apply (fold_left_invariant
           (fun acc : PyDict.t LinkNode.t * list LinkEntry.t =>
              let '(node_data, link_data) := acc in
              Forall node_located (PyDict.values node_data)
              /\ Forall link_located link_data));
    [|exact Hacc].
  clear acc Hacc. intros [node_data link_data] [b_prefix link_info] [Hn Hl].
  unfold directlinks_inner_body.
  destruct (Qgt_bool _ _); [now split|].
  destruct (_get_node_info states b_prefix) as [b_info|] eqn:Hb; [|now split].
  apply (get_node_info_located _ _ _ Hnum) in Hb. split.
  - now apply track_node_located.
  - now apply add_link_located.
Qed.

Lemma directlinks_located states links now_ts :
  Forall coordinates_as_numbers states ->
  Forall node_located (directlinks_nodes (_export_directlinks_data states links now_ts))
  /\ Forall link_located (directlinks_links (_export_directlinks_data states links now_ts)).
Proof.
  intros Hnum. unfold _export_directlinks_data.
  pose proof (directlinks_collect_located states links now_ts
                (_get_threshold_hours states
                   "input_number.meshcore_heatmap_threshold_hours" 168 * 3600)%Q
                Hnum) as H.
  destruct (directlinks_collect _ _ _ _) as [node_data link_data].
  destruct H as [Hn Hl]. simpl. split; [|exact Hl].
  now apply Forall_sort_desc.
Qed.

Lemma nodemap_nodes_spec states now_ts :
  let doc := _export_nodemap_data states now_ts in
  nodemap_nodes doc
  = map (map_node_of now_ts)
      (List.filter
         (nodemap_selected now_ts (nodemap_threshold_hours doc * 3600)%Q) states).
Proof. unfold _export_nodemap_data; simpl. now rewrite nodemap_scan. Qed.

Lemma nodemap_nodes_located states now_ts :
  Forall coordinates_as_numbers states ->
  Forall map_located (nodemap_nodes (_export_nodemap_data states now_ts)).
Proof.
  intros Hnum. rewrite nodemap_nodes_spec. apply Forall_forall. intros n Hn.
  apply list_elem_of_In, in_map_iff in Hn as (st & <- & Hst).
  apply filter_In in Hst as [Hin Hsel].
  apply nodemap_selected_has_coordinates in Hsel.
  apply has_coordinates_located; [|exact Hsel].
  rewrite Forall_forall in Hnum. apply Hnum. now apply list_elem_of_In.
Qed.

(** C10, as the code has it.  Zero-coordinate exclusion.  A contact
    record whose latitude or longitude is missing, an empty string or
    the number zero, in the advertised attribute and in the host's
    attribute it falls back to, counts as having no coordinates.
    [_get_node_info] never takes it as a candidate: it answers as if
    the record were not there, and what it returns is the resolved node
    of a record with coordinates.  [_export_nodemap_data] emits the
    selected records only, none of which is without coordinates.  So,
    when the records hold their coordinates as numbers, every resolved
    node and every node and link end in the nodemap, heatmap and
    direct-links exports has a latitude and a longitude different from
    zero: a node at latitude 0 or longitude 0 is in no projection. *)
Theorem zero_coordinate_exclusion (states : list State.t) :
  (forall state,
      has_coordinates state = false <->
      (blank (Attr.adv_lat (State.attributes state))
       /\ blank (Attr.latitude (State.attributes state)))
      \/ (blank (Attr.adv_lon (State.attributes state))
          /\ blank (Attr.longitude (State.attributes state))))
  /\ (forall prefix,
        _get_node_info states prefix
        = _get_node_info (List.filter has_coordinates states) prefix)
  /\ (forall prefix m,
        _get_node_info states prefix = Some m ->
        exists state, state ∈ states /\ has_coordinates state = true
                      /\ m = node_of state)
  /\ (forall now_ts,
        let doc := _export_nodemap_data states now_ts in
        let selected :=
          nodemap_selected now_ts (nodemap_threshold_hours doc * 3600)%Q in
        nodemap_nodes doc = map (map_node_of now_ts) (List.filter selected states)
        /\ (forall state, has_coordinates state = false -> selected state = false))
  /\ (Forall coordinates_as_numbers states ->
      (forall prefix m,
          _get_node_info states prefix = Some m ->
          located (NodeInfo.lat m) (NodeInfo.lon m))
      /\ (forall now_ts,
            Forall map_located (nodemap_nodes (_export_nodemap_data states now_ts)))
      /\ (forall now_ts,
            Forall heat_located (heatmap_nodes (_export_heatmap_data states now_ts)))
      /\ (forall links now_ts,
            let doc := _export_directlinks_data states links now_ts in
            Forall node_located (directlinks_nodes doc)
            /\ Forall link_located (directlinks_links doc))).
Proof.
  split; [|split; [|split; [|split]]].
  - apply has_coordinates_false.
  - apply get_node_info_ignores_blank.
  - intros prefix m Hm.
    apply get_node_info_candidate in Hm as (st & Hin & Hc & ->).
    exists st. split; [exact Hin|]. split; [|reflexivity].
    exact (is_candidate_has_coordinates _ _ Hc).
  - intros now_ts doc selected. split; [apply nodemap_nodes_spec|].
    intros st Hst. unfold selected, nodemap_selected. rewrite Hst.
    apply andb_false_r.
  - intros Hnum. split; [|split; [|split]].
    + intros prefix m Hm. exact (get_node_info_located _ _ _ Hnum Hm).
    + intros now_ts. now apply nodemap_nodes_located.
    + intros now_ts. now apply heatmap_nodes_located.
    + intros links now_ts. now apply directlinks_located.
Qed.

Lemma zero_coordinate_exclusion_witness :
  let equator := contact "aa1111111111" "Equator" "Client" (CoordNum 0) (CoordNum 10) 100 in
  let states := [equator; contact "bb2222222222" "North" "Client" (CoordNum 51) (CoordNum 4) 100] in
  nodemap_selected 200
    (nodemap_threshold_hours (_export_nodemap_data states 200) * 3600)%Q equator
  = false
  /\ Forall map_located (nodemap_nodes (_export_nodemap_data states 200)).
Proof.
  intros equator states.
  destruct (zero_coordinate_exclusion states) as (_ & _ & _ & Hmap & Hnum).
  split.
  - destruct (Hmap 200%Q) as (_ & Hsel). apply Hsel. reflexivity.
  - destruct Hnum as (_ & Hloc & _); [|apply Hloc].
    repeat (constructor; [repeat split|]). constructor.
Defined.

(** The claim C10 as stated, for a coordinate that is numerically zero,
    fails when the attribute holds the zero as text: the string ["0"] is
    true in [if lat and lon] and [float] reads it as 0.0, so the record
    is a candidate of the resolver and the nodemap export emits it, at
    latitude 0 and longitude 0. *)
Lemma zero_coordinate_exclusion_counterexample :
  let island :=
    contact "cc3333333333" "Null Island" "Client"
      (CoordNumeral "0" 0) (CoordNumeral "0.0" 0) 100 in
  let states := [island] in
  (float (effective_lat (State.attributes island)) == 0)%Q
  /\ (float (effective_lon (State.attributes island)) == 0)%Q
  /\ has_coordinates island = true
  /\ _get_node_info states "cc33" = Some (node_of island)
  /\ nodemap_nodes (_export_nodemap_data states 200) = [map_node_of 200 island]
  /\ ~ located (NodeInfo.lat (node_of island)) (NodeInfo.lon (node_of island))
  /\ ~ Forall map_located (nodemap_nodes (_export_nodemap_data states 200)).
Proof.
  intros island states.
  assert (Hmap : nodemap_nodes (_export_nodemap_data states 200)
                 = [map_node_of 200 island]) by reflexivity.
  repeat split; try reflexivity.
  - intros [H _]. apply H. reflexivity.
  - rewrite Hmap. intros H. apply Forall_cons in H as [[H _] _].
    apply H. reflexivity.
Qed.

(** *** Direct-links export *)

Lemma key_eqb_eq k1 k2 : key_eqb k1 k2 = true <-> k1 = k2.
Proof.
  destruct k1 as [a b], k2 as [a' b']. unfold key_eqb; simpl.
  rewrite andb_true_iff, !String.eqb_eq. split.
  - now intros [-> ->].
  - intros [= -> ->]. auto.
Qed.

Lemma key_eqb_refl k : key_eqb k k = true.
Proof. now apply key_eqb_eq. Qed.

Lemma key_eqb_neq k1 k2 : key_eqb k1 k2 = false <-> k1 <> k2.
Proof.
  rewrite <- key_eqb_eq. destruct (key_eqb k1 k2); split; congruence.
Qed.

(** Two sorted pairs are equal exactly when the unordered pairs are. *)
Lemma sorted2_unordered x y x' y' :
  PyStr.sorted2 x y = PyStr.sorted2 x' y'
  <-> (x = x' /\ y = y') \/ (x = y' /\ y = x').
Proof.
  unfold PyStr.sorted2. split.
  - destruct (String.leb x y), (String.leb x' y'); intros [= -> ->]; auto.
  - intros [[-> ->]|[-> ->]]; [reflexivity|].
    destruct (String.leb y' x') eqn:H1, (String.leb x' y') eqn:H2;
      try reflexivity.
    + now rewrite (String.leb_antisym _ _ H1 H2).
    + destruct (String.leb_total x' y'); congruence.
Qed.

Lemma fold_left_flat_map {A B C} (f : A -> B -> A) (g : C -> list B) l acc :
  fold_left f (flat_map g l) acc
  = fold_left (fun acc x => fold_left f (g x) acc) l acc.
Proof.
  revert acc. induction l as [|x l IH]; intros acc; simpl; [reflexivity|].
  now rewrite fold_left_app, IH.
Qed.

Lemma directlinks_inner_links states now_ts threshold_sec a_info conns acc :
  snd (fold_left (directlinks_inner_body states now_ts threshold_sec a_info)
         conns acc)
  = fold_left add_edge
      (resolved_connections states now_ts threshold_sec a_info conns) (snd acc).
Proof.
  unfold resolved_connections. rewrite fold_left_flat_map.
  revert acc. induction conns as [|[b_prefix link_info] conns IH];
    intros [node_data link_data]; [reflexivity|].
  cbn [fold_left]. rewrite IH. f_equal.
  unfold directlinks_inner_body; simpl.
  destruct (Qgt_bool _ _); [reflexivity|].
  now destruct (_get_node_info states b_prefix).
Qed.

Lemma directlinks_collect_links states links now_ts threshold_sec :
  snd (directlinks_collect states links now_ts threshold_sec)
  = fold_left add_edge (resolved_edges states links now_ts threshold_sec) [].
Proof.
  unfold directlinks_collect, resolved_edges, PyDict.items.
  rewrite fold_left_flat_map.
  change (@nil LinkEntry.t)
    with (snd (@nil (string * LinkNode.t), @nil LinkEntry.t)) at 2.
  generalize (@nil (string * LinkNode.t), @nil LinkEntry.t).
  induction links as [|[a_prefix conns] links IH]; intros acc; [reflexivity|].
  cbn [fold_left]. rewrite IH. f_equal.
  unfold directlinks_outer_body; simpl.
  destruct (_get_node_info states a_prefix); [|reflexivity].
  apply directlinks_inner_links.
Qed.

Lemma set_count_key link c :
  LinkEntry.key (LinkEntry.set_count link c) = LinkEntry.key link.
Proof. reflexivity. Qed.

(** The scan for an existing entry: either no entry has the pair and
    nothing changes, or the first entry with the pair gets the larger
    count and the others stay. *)
Lemma merge_existing_spec k c link_data :
  ((k ∉ map LinkEntry.key link_data)
   /\ merge_existing k c link_data = (false, link_data))
  \/ (exists before link after,
        link_data = before ++ link :: after
        /\ LinkEntry.key link = k
        /\ (k ∉ map LinkEntry.key before)
        /\ merge_existing k c link_data
           = (true,
              before
              ++ LinkEntry.set_count link (Z.max (LinkEntry.count link) c)
              :: after)).
Proof.
  induction link_data as [|link rest IH]; simpl.
  - left. split; [apply not_elem_of_nil|reflexivity].
  - destruct (key_eqb (LinkEntry.key link) k) eqn:Hk.
    + right. exists [], link, rest. apply key_eqb_eq in Hk.
      repeat split; [exact Hk|apply not_elem_of_nil].
    + apply key_eqb_neq in Hk.
      destruct IH as [[Hnot ->]|(before & l & after & -> & Hl & Hb & ->)].
      * left. split; [|reflexivity].
        apply not_elem_of_cons. split; [congruence|exact Hnot].
      * right. exists (link :: before), l, after.
        repeat split; [exact Hl|].
        simpl. apply not_elem_of_cons. split; [congruence|exact Hb].
Qed.

Lemma is_max_count_weaken edges e k c :
  edge_key e <> k -> is_max_count edges k c -> is_max_count (edges ++ [e]) k c.
Proof.
  intros Hne [(e0 & Hin & Hk & Hc) Hub]. split.
  - exists e0. split; [apply elem_of_app; now left|now split].
  - intros e' Hin' Hk'. apply elem_of_app in Hin' as [Hin'|Hin'].
    + now apply Hub.
    + apply list_elem_of_singleton in Hin'. subst e'. contradiction.
Qed.

Lemma is_max_count_merge edges e c :
  is_max_count edges (edge_key e) c ->
  is_max_count (edges ++ [e]) (edge_key e) (Z.max c (edge_count e)).
Proof.
  intros [(e0 & Hin & Hk & Hc) Hub]. split.
  - destruct (Z.max_spec c (edge_count e)) as [[_ ->]|[_ ->]].
    + exists e. split; [apply elem_of_app; right; apply list_elem_of_here|auto].
    + exists e0. split; [apply elem_of_app; now left|auto].
  - intros e' Hin' Hk'. apply elem_of_app in Hin' as [Hin'|Hin'].
    + specialize (Hub _ Hin' Hk'). lia.
    + apply list_elem_of_singleton in Hin'. subst e'. lia.
Qed.

Lemma is_max_count_new edges e :
  (forall e', e' ∈ edges -> edge_key e' <> edge_key e) ->
  is_max_count (edges ++ [e]) (edge_key e) (edge_count e).
Proof.
  intros Hnew. split.
  - exists e. split; [apply elem_of_app; right; apply list_elem_of_here|auto].
  - intros e' Hin' Hk'. apply elem_of_app in Hin' as [Hin'|Hin'].
    + now apply Hnew in Hin'.
    + apply list_elem_of_singleton in Hin'. subst e'. lia.
Qed.

(** One more half-edge keeps the link list merged. *)
Lemma merged_step edges link_data e :
  merged edges link_data -> merged (edges ++ [e]) (add_edge link_data e).
Proof.
  intros (Hnd & Hmax & Hcov). unfold add_edge, add_link. fold (edge_key e).
  fold (edge_count e).
  destruct (merge_existing_spec (edge_key e) (edge_count e) link_data)
    as [[Hnot ->]|(before & l & after & -> & Hl & Hb & ->)]; simpl.
  - (* a new pair: the entry goes last *)
    set (new := LinkEntry.mk _ _ _ _ _ _ _ _ _).
    assert (Hnew : LinkEntry.key new = edge_key e) by reflexivity.
    split; [|split].
    + rewrite map_app. simpl. apply NoDup_app. split; [exact Hnd|].
      split; [|apply NoDup_singleton].
      intros k Hk Hk'. apply list_elem_of_singleton in Hk'. subst k.
      rewrite Hnew in Hk. contradiction.
    + intros link Hin. apply elem_of_app in Hin as [Hin|Hin].
      * apply is_max_count_weaken; [|now apply Hmax].
        intros Heq. apply Hnot. rewrite Heq.
        apply (list_elem_of_fmap_2 LinkEntry.key) in Hin. exact Hin.
      * apply list_elem_of_singleton in Hin. subst link. rewrite Hnew.
        apply is_max_count_new. intros e' Hin' Heq.
        apply Hnot. rewrite <- Heq. now apply Hcov.
    + intros e' Hin. rewrite map_app. apply elem_of_app.
      apply elem_of_app in Hin as [Hin|Hin].
      * left. now apply Hcov.
      * right. apply list_elem_of_singleton in Hin. subst e'.
        simpl. rewrite Hnew. apply list_elem_of_here.
  - (* a known pair: its entry takes the larger count *)
    assert (Hkeys :
      map LinkEntry.key
        (before ++ LinkEntry.set_count l (Z.max (LinkEntry.count l) (edge_count e))
         :: after)
      = map LinkEntry.key (before ++ l :: after)).
    { now rewrite !map_app. }
    split; [|split].
    + now rewrite Hkeys.
    + rewrite map_app in Hnd. simpl in Hnd.
      apply NoDup_app in Hnd as (_ & Hdis & Hnd).
      apply NoDup_cons in Hnd as [Hafter _].
      intros link Hin. apply elem_of_app in Hin as [Hin|Hin].
      * apply is_max_count_weaken.
        -- intros Heq. apply Hb. rewrite Heq.
           apply (list_elem_of_fmap_2 LinkEntry.key) in Hin. exact Hin.
        -- apply Hmax. apply elem_of_app. now left.
      * apply elem_of_cons in Hin as [->|Hin].
        -- rewrite set_count_key. simpl. rewrite Hl.
           apply is_max_count_merge. rewrite <- Hl.
           apply Hmax. apply elem_of_app. right. apply list_elem_of_here.
        -- apply is_max_count_weaken.
           ++ intros Heq. apply Hafter. rewrite Hl, Heq.
              apply (list_elem_of_fmap_2 LinkEntry.key) in Hin. exact Hin.
           ++ apply Hmax. apply elem_of_app. right. now apply list_elem_of_further.
    + intros e' Hin. rewrite Hkeys. apply elem_of_app in Hin as [Hin|Hin].
      * now apply Hcov.
      * apply list_elem_of_singleton in Hin. subst e'.
        rewrite map_app. apply elem_of_app. right. simpl.
        rewrite Hl. apply list_elem_of_here.
Qed.

Lemma merged_fold edges' :
  forall edges link_data,
    merged edges link_data ->
    merged (edges ++ edges') (fold_left add_edge edges' link_data).
Proof.
  induction edges' as [|e edges' IH]; intros edges link_data Hm; simpl.
  - now rewrite app_nil_r.
  - replace (edges ++ e :: edges') with ((edges ++ [e]) ++ edges')
      by now rewrite <- app_assoc.
    apply IH. now apply merged_step.
Qed.

Lemma merged_nil : merged [] [].
Proof.
  split; [constructor|]. split; intros x Hx; now apply elem_of_nil in Hx.
Qed.

(** With one entry per pair, the entries for the pair of an entry are
    that entry alone. *)
Lemma entries_for_unique link_data link :
  NoDup (map LinkEntry.key link_data) ->
  link ∈ link_data ->
  entries_for (LinkEntry.key link) link_data = [link].
Proof.
  unfold entries_for.
  induction link_data as [|l rest IH]; simpl; intros Hnd Hin.
  - now apply elem_of_nil in Hin.
  - apply NoDup_cons in Hnd as [Hl Hnd].
    assert (Hrest : forall x, x ∈ rest -> LinkEntry.key x <> LinkEntry.key l).
    { intros x Hx Heq. apply Hl. rewrite <- Heq.
      apply (list_elem_of_fmap_2 LinkEntry.key) in Hx. exact Hx. }
    apply elem_of_cons in Hin as [->|Hin].
    + rewrite key_eqb_refl. f_equal.
      clear IH Hl Hnd. induction rest as [|x rest IH]; simpl; [reflexivity|].
      assert (Hx : key_eqb (LinkEntry.key x) (LinkEntry.key l) = false).
      { apply key_eqb_neq, Hrest, list_elem_of_here. }
      rewrite Hx. apply IH. intros y Hy. apply Hrest. now apply list_elem_of_further.
    + assert (Hne : key_eqb (LinkEntry.key l) (LinkEntry.key link) = false).
      { apply key_eqb_neq. intros Heq. now apply (Hrest link Hin). }
      rewrite Hne. now apply IH.
Qed.

Lemma directlinks_doc_fields states links now_ts :
  let th :=
    _get_threshold_hours states "input_number.meshcore_heatmap_threshold_hours"
      168 in
  let doc := _export_directlinks_data states links now_ts in
  directlinks_threshold_hours doc = th
  /\ directlinks_links doc
     = snd (directlinks_collect states links now_ts (th * 3600)%Q).
Proof.
  intros th doc. unfold doc, _export_directlinks_data. fold th.
  now destruct (directlinks_collect states links now_ts (th * 3600)%Q).
Qed.

(** The link list of the export is merged with respect to the resolved
    half-edges of the store. *)
Lemma directlinks_links_merged states links now_ts :
  let doc := _export_directlinks_data states links now_ts in
  merged
    (resolved_edges states links now_ts (directlinks_threshold_hours doc * 3600)%Q)
    (directlinks_links doc).
Proof.
  intros doc.
  destruct (directlinks_doc_fields states links now_ts) as [Hth Hlinks].
  fold doc in Hth, Hlinks. rewrite Hlinks, Hth, directlinks_collect_links.
  exact (merged_fold _ [] [] merged_nil).
Qed.

Lemma same_pair_edge_key e1 e2 : same_pair e1 e2 <-> edge_key e1 = edge_key e2.
Proof. unfold same_pair, edge_key. symmetry. apply sorted2_unordered. Qed.

Lemma merged_entry edges link_data e :
  merged edges link_data ->
  e ∈ edges ->
  exists link,
    entries_for (edge_key e) link_data = [link]
    /\ is_max_count edges (edge_key e) (LinkEntry.count link).
Proof.
  intros (Hnd & Hmax & Hcov) Hin.
  specialize (Hcov _ Hin).
  apply list_elem_of_In, in_map_iff in Hcov as (link & Hk & Hl).
  apply list_elem_of_In in Hl.
  exists link. rewrite <- Hk. split.
  - now apply entries_for_unique.
  - now apply Hmax.
Qed.

(** C5. Direct-links export deduplication.  Two store half-edges within
    the threshold whose ends resolve to the same unordered pair of
    identities give exactly one entry of the exported links list for that
    pair, and its count is the maximum of the counts observed on the
    half-edges of the pair; every exported entry stands for such a
    half-edge.  For X<->Y recorded with count 3 and Y<->X with count 5
    the export has the one link X-Y with count 5. *)
Theorem direct_links_export_dedup (states : list State.t) (links : Store)
    (now_ts : Q) :
  let doc := _export_directlinks_data states links now_ts in
  let edges :=
    resolved_edges states links now_ts (directlinks_threshold_hours doc * 3600)%Q in
  (forall e1 e2,
      e1 ∈ edges -> e2 ∈ edges -> same_pair e1 e2 ->
      exists link,
        entries_for (edge_key e1) (directlinks_links doc) = [link]
        /\ entries_for (edge_key e2) (directlinks_links doc) = [link]
        /\ is_max_count edges (edge_key e1) (LinkEntry.count link)
        /\ Z.max (edge_count e1) (edge_count e2) <= LinkEntry.count link)
  /\ (forall link,
        link ∈ directlinks_links doc ->
        entries_for (LinkEntry.key link) (directlinks_links doc) = [link]
        /\ exists e, e ∈ edges /\ edge_key e = LinkEntry.key link
                     /\ edge_count e = LinkEntry.count link)
  /\ directlinks_links
       (_export_directlinks_data [sample_X; sample_Y] sample_links 2000)
     = [LinkEntry.mk "aaaa11111111" "X" 51 4 "bbbb22222222" "Y" 52 5 5].
Proof.
  intros doc edges.
  pose proof (directlinks_links_merged states links now_ts) as Hm.
  fold doc in Hm. fold edges in Hm.
  split; [|split].
  - intros e1 e2 H1 H2 Hsame. apply same_pair_edge_key in Hsame.
    destruct (merged_entry _ _ _ Hm H1) as (link & Hone & Hmax).
    exists link. rewrite <- Hsame. repeat split; try assumption.
    + apply Hmax.
    + apply Hmax.
    + destruct Hmax as [_ Hub].
      pose proof (Hub _ H1 eq_refl). pose proof (Hub _ H2 (eq_sym Hsame)). lia.
  - intros link Hin. destruct Hm as (Hnd & Hmax & _). split.
    + now apply entries_for_unique.
    + destruct (Hmax _ Hin) as [(e & He & Hk & Hc) _]. eauto.
  - reflexivity.
Qed.

Lemma direct_links_export_dedup_witness :
  let x := node_of sample_X in
  let y := node_of sample_Y in
  let doc := _export_directlinks_data [sample_X; sample_Y] sample_links 2000 in
  exists link,
    entries_for (edge_key (x, y, mkLink (Some 1000%Q) (Some 3)))
      (directlinks_links doc) = [link]
    /\ entries_for (edge_key (y, x, mkLink (Some 1000%Q) (Some 5)))
         (directlinks_links doc) = [link]
    /\ 5 <= LinkEntry.count link.
Proof.
  intros x y doc.
  destruct (direct_links_export_dedup [sample_X; sample_Y] sample_links 2000)
    as (Hpair & _ & _).
  destruct (Hpair (x, y, mkLink (Some 1000%Q) (Some 3))
                  (y, x, mkLink (Some 1000%Q) (Some 5)))
    as (link & H1 & H2 & _ & Hmax).
  - apply list_elem_of_In. vm_compute. auto.
  - apply list_elem_of_In. vm_compute. auto.
  - right. split; reflexivity.
  - exists link. repeat split; [exact H1|exact H2|exact Hmax].
Defined.

(** *** Greeting engine *)

Lemma take_truthy_nonempty s : PyStr.truthy s = true <-> s <> "".
Proof. destruct s; simpl; split; congruence. Qed.

(** On the payloads of [Event.Payload], the handler and the greeting let
    no exception out. *)
Lemma send_greeting_returns name pubkey w :
  fst (_send_greeting name pubkey w) = Returns tt.
Proof.
  py_unfold; simpl.
  destruct (Hass.outcomes (Coordinator.hass (self w))) as [|[msg|] rest];
    simpl; try reflexivity.
  destruct rest as [|[msg|] rest]; reflexivity.
Qed.

Lemma process_new_contact_returns payload w :
  fst (_process_new_contact payload w) = Returns tt.
Proof.
  unfold _process_new_contact, py_bind, get_self, py_ret.
  destruct (negb (Coordinator.greet_enabled (self w))); [reflexivity|].
  destruct (_ =? 2)%Z; [reflexivity|].
  destruct (negb _ || _); [reflexivity|].
  apply send_greeting_returns.
Qed.

(** A payload that passes the guards of the handler goes to the
    greeting. *)
Lemma process_new_contact_greets payload w :
  Coordinator.greet_enabled (self w) = true ->
  contact_type payload <> 2 ->
  contact_pubkey payload <> "" ->
  contact_pubkey payload ∉ greeted w ->
  _process_new_contact payload w
  = _send_greeting (default "Unknown" (Event.adv_name payload))
      (contact_pubkey payload) w.
Proof.
  intros Hen Hty Hpk Hnew.
  unfold _process_new_contact, py_bind, get_self.
  rewrite Hen; simpl. fold (contact_type payload) (contact_pubkey payload).
  destruct (Z.eqb_spec (contact_type payload) 2) as [|_]; [contradiction|].
  apply take_truthy_nonempty in Hpk. rewrite Hpk; simpl.
  now rewrite bool_decide_eq_false_2.
Qed.


(** A repeater is ignored, whatever the greeted set. *)
Lemma process_new_contact_repeater payload w :
  contact_type payload = TYPE_REPEATER ->
  _process_new_contact payload w = (Returns tt, w).
Proof.
  intros Hty. unfold _process_new_contact, py_bind, get_self, py_ret.
  destruct (negb (Coordinator.greet_enabled (self w))); [reflexivity|].
  fold (contact_type payload). now rewrite Hty.
Qed.

Lemma greetings_sent_app w calls :
  issued w = calls ->
  greetings_sent w = length (List.filter is_send_channel_message calls).
Proof. intros <-. reflexivity. Qed.

(** The greeting when no command fails: the identity is greeted, the two
    commands are issued, one of them a channel message. *)
Lemma send_greeting_success name pubkey w :
  greeting_failure w = None ->
  let w' := snd (_send_greeting name pubkey w) in
  greeted w' = greeted w ∪ {[pubkey]}
  /\ greetings_sent w' = S (greetings_sent w)
  /\ coming w' = tail (tail (coming w)).
Proof.
  unfold greeting_failure, coming, greeted, greetings_sent.
  py_unfold; simpl.
  destruct (Hass.outcomes (Coordinator.hass (self w))) as [|[msg|] rest];
    simpl; try discriminate.
  - intros _. rewrite <- ?app_assoc, List.filter_app, List.length_app. simpl.
    repeat split; lia.
  - destruct rest as [|[msg|] rest]; simpl; try discriminate;
      intros _; rewrite <- ?app_assoc, List.filter_app, List.length_app; simpl;
      repeat split; lia.
Qed.

(** The greeting when a command fails: the identity is taken back out of
    the greeted set and the failure is logged. *)
Lemma send_greeting_failure name pubkey w msg :
  greeting_failure w = Some msg ->
  let w' := snd (_send_greeting name pubkey w) in
  greeted w' = (greeted w ∪ {[pubkey]}) ∖ {[pubkey]}
  /\ log w' = log w ++ [(ERROR, "Error sending greeting: " +:+ msg)]
  /\ Coordinator.direct_links (self w') = Coordinator.direct_links (self w)
  /\ Coordinator.greet_enabled (self w') = Coordinator.greet_enabled (self w).
Proof.
  unfold greeting_failure, coming, greeted.
  py_unfold; simpl.
  destruct (Hass.outcomes (Coordinator.hass (self w))) as [|[msg'|] rest];
    simpl; try discriminate.
  - intros [= ->]. repeat split.
  - destruct rest as [|[msg'|] rest]; simpl; try discriminate.
    intros [= ->]. repeat split.
Qed.

(** Whatever the outcome, a greeting issues one channel message. *)
Lemma send_greeting_attempt name pubkey w :
  greetings_sent (snd (_send_greeting name pubkey w)) = S (greetings_sent w).
Proof.
  unfold greetings_sent. py_unfold; simpl.
  destruct (Hass.outcomes (Coordinator.hass (self w))) as [|[msg|] rest]; simpl.
  - rewrite <- app_assoc, List.filter_app, List.length_app. simpl. lia.
  - rewrite List.filter_app, List.length_app. simpl. lia.
  - destruct rest as [|[msg|] rest]; simpl;
      rewrite <- app_assoc, List.filter_app, List.length_app; simpl; lia.
Qed.

Lemma rolled_back (s : gset string) (p : string) : p ∉ (s ∪ {[p]}) ∖ {[p]}.
Proof.
  intros H. apply elem_of_difference in H as [_ H]. apply H.
  now apply elem_of_singleton.
Qed.







(** C7. Greeting rollback.  When a new-contact event reaches the greeting
    and one of its outbound commands fails, the handler returns normally,
    the failure is logged, and the identity is absent from the greeted
    set afterwards; the same event then attempts the greeting again, and
    leaves the identity greeted when no command fails this time.  The
    greeting itself rolls back any identity, and neither the greeting
    nor the handler ever lets an exception out. *)
Theorem greeting_rollback (w : World) (payload : Event.Payload) (msg : string) :
  Coordinator.greet_enabled (self w) = true ->
  contact_type payload <> TYPE_REPEATER ->
  contact_pubkey payload <> "" ->
  contact_pubkey payload ∉ greeted w ->
  greeting_failure w = Some msg ->
  let p := contact_pubkey payload in
  let w1 := after_contact payload w in
  let w2 := after_contact payload w1 in
  fst (_process_new_contact payload w) = Returns tt
  /\ (p ∉ greeted w1)
  /\ log w1 = log w ++ [(ERROR, "Error sending greeting: " +:+ msg)]
  /\ greetings_sent w2 = S (greetings_sent w1)
  /\ (greeting_failure w1 = None -> p ∈ greeted w2)
  /\ (forall name q,
        fst (_send_greeting name q w) = Returns tt
        /\ (q ∉ greeted (snd (_send_greeting name q w))))
  /\ (forall payload' w', fst (_process_new_contact payload' w') = Returns tt).
Proof.
  intros Hen Hty Hpk Hnew Hfail p w1 w2.
  assert (Hw1 : w1 = snd (_send_greeting (default "Unknown" (Event.adv_name payload)) p w)).
  { unfold w1, after_contact. now rewrite process_new_contact_greets. }
  destruct (send_greeting_failure (default "Unknown" (Event.adv_name payload))
              p w msg Hfail) as (Hg & Hlog & _ & Hen').
  rewrite <- Hw1 in Hg, Hlog, Hen'.
  assert (Hout : p ∉ greeted w1) by (rewrite Hg; apply rolled_back).
  assert (Hw2 : w2 = snd (_send_greeting (default "Unknown" (Event.adv_name payload)) p w1)).
  { unfold w2, after_contact. rewrite process_new_contact_greets; auto.
    now rewrite Hen'. }
  split; [apply process_new_contact_returns|].
  split; [exact Hout|]. split; [exact Hlog|]. split; [|split; [|split]].
  - rewrite Hw2. apply send_greeting_attempt.
  - intros Hok. rewrite Hw2.
    destruct (send_greeting_success (default "Unknown" (Event.adv_name payload))
                p w1 Hok) as (Hg2 & _).
    rewrite Hg2. apply elem_of_union_r. now apply elem_of_singleton.
  - intros name q. split; [apply send_greeting_returns|].
    destruct (send_greeting_failure name q w msg Hfail) as (Hq & _).
    rewrite Hq. apply rolled_back.
  - intros payload' w'. apply process_new_contact_returns.
Qed.

Lemma greeting_rollback_witness :
  let w := sample_world ∅ [Some "radio offline"] in
  let bob := new_contact "abcdef123456" "Bob" TYPE_CLIENT in
  ("abcdef123456" ∉ greeted (after_contact bob w))
  /\ "abcdef123456" ∈ greeted (after_contact bob (after_contact bob w)).
Proof.
  intros w bob.
  assert (Hpk : contact_pubkey bob <> "") by (vm_compute; discriminate).
  assert (Hty : contact_type bob <> TYPE_REPEATER) by (vm_compute; discriminate).
  destruct (greeting_rollback w bob "radio offline" eq_refl Hty Hpk
              (not_elem_of_empty _) eq_refl)
    as (_ & Hout & _ & _ & Hretry & _).
  split; [exact Hout|]. apply Hretry. reflexivity.
Defined.

Lemma send_greeting_config name pubkey w :
  Coordinator.greet_enabled (self (snd (_send_greeting name pubkey w)))
  = Coordinator.greet_enabled (self w).
Proof.
  py_unfold; simpl.
  destruct (Hass.outcomes (Coordinator.hass (self w))) as [|[msg|] rest];
    simpl; try reflexivity.
  destruct rest as [|[msg|] rest]; reflexivity.
Qed.

(** C8, at the input where the code departs from it.  A new-contact event
    with type code 3, a room server, is not filtered: on an empty greeted
    set it sends the greeting and enters the greeted set.  The handler
    tests for type code 2 only. *)
Theorem room_server_is_greeted :
  let w := sample_world ∅ [] in
  let room := new_contact "abcdef123456" "Room" TYPE_ROOM_SERVER in
  let w1 := after_contact room w in
  contact_type room = 3
  /\ greetings_sent w = 0%nat
  /\ greetings_sent w1 = 1%nat
  /\ "abcdef123456" ∈ greeted w1.
Proof.
  intros w room w1.
  assert (Hw1 : w1 = snd (_send_greeting "Room" "abcdef123456" w)).
  { unfold w1, after_contact. rewrite process_new_contact_greets.
    - reflexivity.
    - reflexivity.
    - vm_compute. discriminate.
    - vm_compute. discriminate.
    - apply not_elem_of_empty. }
  split; [reflexivity|]. split; [reflexivity|].
  destruct (send_greeting_success "Room" "abcdef123456" w eq_refl) as (Hg & Hs & _).
  rewrite <- Hw1 in Hg, Hs. split; [exact Hs|].
  rewrite Hg. apply elem_of_union_r. now apply elem_of_singleton.
Qed.

(** C9, at the input where the code departs from it.  The handler
    truncates the pubkey to 12 characters and files it as it is written:
    two events whose pubkeys differ in case only are two identities, and
    each is greeted. *)
Theorem mixed_case_greeted_twice :
  let w := sample_world ∅ [] in
  let upper := new_contact "ABCDEF123456" "Bob" TYPE_CLIENT in
  let lower := new_contact "abcdef123456" "Bob" TYPE_CLIENT in
  let w2 := after_contact lower (after_contact upper w) in
  PyStr.lower (contact_pubkey upper) = PyStr.lower (contact_pubkey lower)
  /\ greetings_sent w = 0%nat
  /\ greetings_sent w2 = 2%nat
  /\ "ABCDEF123456" ∈ greeted w2
  /\ "abcdef123456" ∈ greeted w2.
Proof.
  intros w upper lower w2.
  set (w1 := after_contact upper w).
  assert (Hw1 : w1 = snd (_send_greeting "Bob" "ABCDEF123456" w)).
  { unfold w1, after_contact. rewrite process_new_contact_greets.
    - reflexivity.
    - reflexivity.
    - vm_compute. discriminate.
    - vm_compute. discriminate.
    - apply not_elem_of_empty. }
  destruct (send_greeting_success "Bob" "ABCDEF123456" w eq_refl)
    as (Hg1 & Hs1 & Hc1).
  rewrite <- Hw1 in Hg1, Hs1, Hc1.
  assert (Hw2 : w2 = snd (_send_greeting "Bob" "abcdef123456" w1)).
  { unfold w2. fold w1. unfold after_contact.
    rewrite process_new_contact_greets.
    - reflexivity.
    - rewrite Hw1. now rewrite send_greeting_config.
    - vm_compute. discriminate.
    - vm_compute. discriminate.
    - rewrite Hg1. change (contact_pubkey lower) with "abcdef123456".
      intros H. apply elem_of_union in H as [H|H].
      + now apply not_elem_of_empty in H.
      + apply elem_of_singleton in H. discriminate H. }
  assert (Hok : greeting_failure w1 = None).
  { unfold greeting_failure. now rewrite Hc1. }
  destruct (send_greeting_success "Bob" "abcdef123456" w1 Hok) as (Hg2 & Hs2 & _).
  rewrite <- Hw2 in Hg2, Hs2.
  split; [reflexivity|]. split; [reflexivity|]. split; [|split].
  - rewrite Hs2, Hs1. reflexivity.
  - rewrite Hg2, Hg1. apply elem_of_union_l, elem_of_union_r.
    now apply elem_of_singleton.
  - rewrite Hg2. apply elem_of_union_r. now apply elem_of_singleton.
Qed.

(** ** Further properties *)

(** *** Path-trace ingestion *)

Lemma lower_ascii_idempotent c :
  PyStr.lower_ascii (PyStr.lower_ascii c) = PyStr.lower_ascii c.
Proof.
  destruct c as [[] [] [] [] [] [] [] []]; reflexivity.
Qed.

Lemma lower_idempotent s : PyStr.lower (PyStr.lower s) = PyStr.lower s.
Proof.
  induction s as [|c s IH]; simpl; [reflexivity|].
  now rewrite lower_ascii_idempotent, IH.
Qed.

Lemma written_compose m n now_ts old :
  written m now_ts (written n now_ts old) = written (n + m) now_ts old.
Proof.
  destruct n as [|n]; simpl; [reflexivity|].
  destruct m as [|m]; simpl.
  - now rewrite Nat.add_0_r.
  - unfold count_or; simpl. do 3 f_equal. lia.
Qed.

Lemma half_edge_record_written links a b t x y :
  half_edge (_record_direct_link links a b t) x y
  = written (if String.eqb a x && String.eqb b y then 1 else 0) t
      (half_edge links x y).
Proof.
  destruct (String.eqb_spec a x) as [->|Hax]; simpl.
  - destruct (String.eqb_spec b y) as [->|Hby]; simpl.
    + rewrite half_edge_record_eq. unfold next_count.
      now destruct (half_edge links x y).
    + apply half_edge_record_ne. congruence.
  - apply half_edge_record_ne. congruence.
Qed.

Lemma half_edge_record_both now_ts links pair x y :
  half_edge (record_both now_ts links pair) x y
  = written (pair_writes x y pair) now_ts (half_edge links x y).
Proof.
  unfold record_both, pair_writes.
  now rewrite !half_edge_record_written, written_compose.
Qed.

Lemma half_edge_fold_record_both now_ts pairs :
  forall links x y,
    half_edge (fold_left (record_both now_ts) pairs links) x y
    = written (list_sum (map (pair_writes x y) pairs)) now_ts (half_edge links x y).
Proof.
  induction pairs as [|p pairs IH]; intros links x y; simpl; [reflexivity|].
  now rewrite IH, half_edge_record_both, written_compose.
Qed.

Lemma half_edge_process_rx links payload now_ts x y :
  half_edge (_process_rx_log_data links payload now_ts) x y
  = written (list_sum (map (pair_writes x y) (consecutive_pairs (path_of payload))))
      now_ts (half_edge links x y).
Proof.
  rewrite process_rx_log_data_pairs. apply half_edge_fold_record_both.
Qed.

(** X1.  The exact effect of one path-trace event on any half-edge: it is
    left as it is when no consecutive pair of the path names it, and
    otherwise it carries the event's time and its former count (0 when
    new) plus the number of writes, one for each pair that names it in
    either orientation; a pair of two equal nodes writes its self-edge
    twice. *)
Theorem path_trace_exact_effect (links : Store) (payload : Event.Payload)
    (now_ts : Q) (x y : string) :
  half_edge (_process_rx_log_data links payload now_ts) x y
  = written (path_writes x y (path_of payload)) now_ts (half_edge links x y).
Proof.
  unfold path_writes. rewrite process_rx_log_data_pairs.
  generalize (consecutive_pairs (path_of payload)). intros pairs.
  revert links. induction pairs as [|p pairs IH]; intros links; simpl.
  - reflexivity.
  - now rewrite IH, half_edge_record_both, written_compose.
Qed.

Lemma written_keeps n now_ts old e :
  old = Some e ->
  exists e', written n now_ts old = Some e' /\ count_or 0 e <= count_or 0 e'.
Proof.
  intros ->. destruct n as [|n]; simpl.
  - exists e. split; [reflexivity|lia].
  - eexists. split; [reflexivity|]. unfold count_or at 2; simpl. lia.
Qed.

Lemma handle_event_links event now_ts w :
  Coordinator.direct_links (self (snd (_handle_meshcore_event event now_ts w)))
  = Coordinator.direct_links (self w)
  \/ exists payload,
       Coordinator.direct_links (self (snd (_handle_meshcore_event event now_ts w)))
       = _process_rx_log_data (Coordinator.direct_links (self w)) payload now_ts.
Proof.
  unfold _handle_meshcore_event.
  destruct (String.eqb _ "EventType.RX_LOG_DATA").
  - right. eexists. reflexivity.
  - left. destruct (String.eqb _ "EventType.NEW_CONTACT").
    + apply process_new_contact_direct_links.
    + reflexivity.
Qed.

(** X2.  Ingestion never forgets a link: over any sequence of events a
    half-edge of the store stays in the store and its count does not
    go down. *)
Theorem ingestion_never_forgets (events : list (Event.t * Q)) (w : World)
    (a b : string) (e : Link) :
  half_edge (Coordinator.direct_links (self w)) a b = Some e ->
  exists e',
    half_edge (Coordinator.direct_links (self (run_events events w))) a b = Some e'
    /\ count_or 0 e <= count_or 0 e'.
Proof.
  revert w e. induction events as [|[event now_ts] events IH]; intros w e He.
  - exists e. split; [exact He|lia].
  - simpl.
    assert (Hstep : exists e1,
      half_edge (Coordinator.direct_links
                   (self (snd (_handle_meshcore_event event now_ts w)))) a b = Some e1
      /\ count_or 0 e <= count_or 0 e1).
    { destruct (handle_event_links event now_ts w) as [->|[payload ->]].
      - exists e. split; [exact He|lia].
      - rewrite half_edge_process_rx. now apply written_keeps. }
    destruct Hstep as (e1 & He1 & Hle1).
    destruct (IH _ _ He1) as (e' & He' & Hle').
    exists e'. split; [exact He'|lia].
Qed.

Lemma ingestion_never_forgets_witness :
  exists e',
    half_edge
      (Coordinator.direct_links
         (self
            (run_events
               [(Event.mk (Some "EventType.RX_LOG_DATA")
                   (Some (trace_payload ["AAAA11111111"; "bbbb22222222"])), 2000%Q)]
               (mkWorld
                  (Coordinator.mk (Hass.mk [] [] []) "Me" true sample_links [] ∅)
                  []))))
      "aaaa11111111" "bbbb22222222" = Some e'
    /\ 3 <= count_or 0 e'.
Proof.
  apply (ingestion_never_forgets _ _ _ _ (mkLink (Some 1000%Q) (Some 3))).
  reflexivity.
Defined.

Lemma pair_writes_lower x y pair :
  (0 < pair_writes x y pair)%nat -> PyStr.lower x = x /\ PyStr.lower y = y.
Proof.
  unfold pair_writes. intros H.
  destruct (String.eqb (PyStr.lower (fst pair)) x
            && String.eqb (PyStr.lower (snd pair)) y) eqn:H1.
  - apply andb_true_iff in H1 as [Hx Hy].
    apply String.eqb_eq in Hx, Hy. subst x y.
    now rewrite !lower_idempotent.
  - destruct (String.eqb (PyStr.lower (snd pair)) x
              && String.eqb (PyStr.lower (fst pair)) y) eqn:H2.
    + apply andb_true_iff in H2 as [Hx Hy].
      apply String.eqb_eq in Hx, Hy. subst x y.
      now rewrite !lower_idempotent.
    + simpl in H. lia.
Qed.

Lemma path_writes_lower x y path :
  (0 < path_writes x y path)%nat -> PyStr.lower x = x /\ PyStr.lower y = y.
Proof.
  unfold path_writes. induction (consecutive_pairs path) as [|p pairs IH]; simpl.
  - lia.
  - intros H. destruct (pair_writes x y p) eqn:Hp.
    + apply IH. simpl in H. exact H.
    + apply (pair_writes_lower x y p). lia.
Qed.

(** X3.  Every identity the handler writes into the store is lower-case: a
    store whose identities are lower-case keeps that over any sequence
    of events. *)
Theorem ingestion_keeps_lower_case (events : list (Event.t * Q)) (w : World) :
  lower_keyed (Coordinator.direct_links (self w)) ->
  lower_keyed (Coordinator.direct_links (self (run_events events w))).
Proof.
  revert w. induction events as [|[event now_ts] events IH]; intros w Hw.
  - exact Hw.
  - simpl. apply IH.
    destruct (handle_event_links event now_ts w) as [->|[payload ->]]; [exact Hw|].
    intros a b e. rewrite half_edge_process_rx. fold (path_writes a b (path_of payload)).
    destruct (path_writes a b (path_of payload)) as [|n] eqn:Hn.
    + simpl. apply Hw.
    + intros _. apply (path_writes_lower a b (path_of payload)). lia.
Qed.

Lemma ingestion_keeps_lower_case_witness :
  lower_keyed
    (Coordinator.direct_links
       (self
          (run_events
             [(Event.mk (Some "EventType.RX_LOG_DATA")
                 (Some (trace_payload ["AAAA11111111"; "Bbbb22222222"])), 2000%Q)]
             (mkWorld (Coordinator.mk (Hass.mk [] [] []) "Me" true [] [] ∅) [])))).
Proof.
  apply ingestion_keeps_lower_case. intros a b e H. discriminate H.
Defined.

Lemma combine_map {A B} (f : A -> B) (l l' : list A) :
  combine (map f l) (map f l') = map (fun p => (f (fst p), f (snd p))) (combine l l').
Proof.
  revert l'. induction l as [|a l IH]; intros [|a' l']; simpl; try reflexivity.
  now rewrite IH.
Qed.

Lemma consecutive_pairs_map (f : string -> string) l :
  consecutive_pairs (map f l)
  = map (fun p => (f (fst p), f (snd p))) (consecutive_pairs l).
Proof.
  unfold consecutive_pairs. rewrite <- combine_map. f_equal.
  now destruct l.
Qed.

Lemma fold_record_both_lower now_ts pairs links :
  fold_left (record_both now_ts) pairs links
  = fold_left (record_both now_ts)
      (map (fun p => (PyStr.lower (fst p), PyStr.lower (snd p))) pairs) links.
Proof.
  revert links. induction pairs as [|p pairs IH]; intros links; simpl; [reflexivity|].
  rewrite IH. f_equal. unfold record_both; simpl. now rewrite !lower_idempotent.
Qed.

(** X4.  The case of the path nodes does not matter: two path-trace events
    whose node sequences are equal after lower-casing change the store
    in the same way. *)
Theorem path_trace_case_insensitive (links : Store)
    (payload payload' : Event.Payload) (now_ts : Q) :
  map PyStr.lower (path_of payload) = map PyStr.lower (path_of payload') ->
  _process_rx_log_data links payload now_ts
  = _process_rx_log_data links payload' now_ts.
Proof.
  intros Hsame. rewrite !process_rx_log_data_pairs.
  rewrite (fold_record_both_lower _ (consecutive_pairs (path_of payload))).
  rewrite (fold_record_both_lower _ (consecutive_pairs (path_of payload'))).
  now rewrite <- !consecutive_pairs_map, Hsame.
Qed.

Lemma path_trace_case_insensitive_witness :
  _process_rx_log_data sample_links (trace_payload ["AAAA11111111"; "BBBB22222222"]) 2000
  = _process_rx_log_data sample_links (trace_payload ["aaaa11111111"; "bbbb22222222"]) 2000.
Proof.
  apply path_trace_case_insensitive. reflexivity.
Defined.

(** *** Retention pass, further *)







Lemma save_last_message_times c now_ts :
  PyDict.wf (Coordinator.last_message_times c) ->
  Coordinator.last_message_times (_save_persisted_data c now_ts)
  = List.filter (fun kv => recent_activity now_ts (snd kv))
      (Coordinator.last_message_times c).
Proof.
  intros Hwf. simpl. unfold PyDict.items.
  exact (rebuild_filter (recent_activity now_ts) _ [] Hwf).
Qed.

Lemma filter_wf {V} (P : string * V -> bool) (d : PyDict.t V) :
  PyDict.wf d -> PyDict.wf (List.filter P d).
Proof.
  unfold PyDict.wf. induction d as [|[k v] d IH]; simpl; intros Hwf; [exact Hwf|].
  apply NoDup_cons in Hwf as [Hk Hwf].
  destruct (P (k, v)); [|now apply IH].
  simpl. apply NoDup_cons. split; [|now apply IH].
  intros Hin. apply Hk.
  apply list_elem_of_In, in_map_iff in Hin as ([k' v'] & Hk' & Hin).
  simpl in Hk'. subst k'. apply filter_In in Hin as [Hin _].
  apply list_elem_of_In, in_map_iff. exists (k, v'). auto.
Qed.

(** X5.  The save pass prunes the last-activity map like the link store: an
    entry survives exactly when its time is not older than [now] minus
    604800 seconds. *)
Theorem last_activity_pruning (c : Coordinator.t) (now_ts : Q) :
  PyDict.wf (Coordinator.last_message_times c) ->
  let before := Coordinator.last_message_times c in
  let after := Coordinator.last_message_times (_save_persisted_data c now_ts) in
  (forall k v,
      PyDict.get after k = Some v ->
      PyDict.get before k = Some v /\ ~ (v < now_ts - 604800)%Q)
  /\ (forall k v,
        PyDict.get before k = Some v ->
        (now_ts - 604800 <= v)%Q ->
        PyDict.get after k = Some v)
  /\ PyDict.wf after.
Proof.
  intros Hwf before after.
  assert (Hafter : after = List.filter (fun kv => recent_activity now_ts (snd kv)) before)
    by now apply save_last_message_times.
  rewrite Hafter. split; [|split].
  - intros k v. rewrite (get_filter (recent_activity now_ts)) by assumption.
    destruct (PyDict.get before k) as [v0|]; [|discriminate].
    destruct (recent_activity now_ts v0) eqn:Hr; [|discriminate].
    intros [= <-]. split; [reflexivity|].
    unfold recent_activity in Hr. apply Qle_bool_iff in Hr.
    rewrite max_age_seconds in Hr. lra.
  - intros k v Hk Hv. rewrite (get_filter (recent_activity now_ts)) by assumption.
    rewrite Hk.
    assert (Hr : recent_activity now_ts v = true).
    { unfold recent_activity. apply Qle_bool_iff. rewrite max_age_seconds. lra. }
    now rewrite Hr.
  - now apply filter_wf.
Qed.

Lemma last_activity_pruning_witness :
  let c :=
    Coordinator.mk (Hass.mk [] [] []) "Me" true []
      [("aaaa11111111", 1000%Q); ("bbbb22222222", 900000%Q)] ∅ in
  PyDict.get (Coordinator.last_message_times (_save_persisted_data c 1000000))
    "bbbb22222222" = Some 900000%Q.
Proof.
  intros c.
  assert (Hwf : PyDict.wf (Coordinator.last_message_times c)).
  { unfold PyDict.wf. simpl. apply (bool_decide_unpack _). vm_compute. exact I. }
  destruct (last_activity_pruning c 1000000 Hwf) as (_ & Hkeep & _).
  apply Hkeep; [reflexivity|]. unfold Qle; simpl; lia.
Defined.



(** *** The export cycle *)







(** *** Node resolver, further *)

Lemma is_candidate_lower prefix state :
  is_candidate (PyStr.lower prefix) state = is_candidate prefix state.
Proof. unfold is_candidate. now rewrite lower_idempotent. Qed.

Lemma get_node_info_by_candidates states prefix prefix' :
  (forall state, is_candidate prefix state = is_candidate prefix' state) ->
  _get_node_info states prefix = _get_node_info states prefix'.
Proof.
  intros Hsame. unfold _get_node_info. rewrite !node_info_scan.
  now rewrite (List.filter_ext _ _ Hsame).
Qed.

(** X8.  Resolution does not depend on the case of the prefix. *)
Theorem resolver_prefix_case_insensitive (states : list State.t)
    (prefix prefix' : string) :
  PyStr.lower prefix = PyStr.lower prefix' ->
  _get_node_info states prefix = _get_node_info states prefix'.
Proof.
  intros Hsame. apply get_node_info_by_candidates. intros state.
  unfold is_candidate. now rewrite Hsame.
Qed.

Lemma resolver_prefix_case_insensitive_witness :
  _get_node_info [sample_X; sample_Y] "AAAA" = _get_node_info [sample_X; sample_Y] "aaaa".
Proof. apply resolver_prefix_case_insensitive. reflexivity. Defined.

(** X9.  The identity of a resolved node is not empty, is lower-case and
    starts with the lower-cased prefix. *)
Theorem resolved_identity (states : list State.t) (prefix : string)
    (m : NodeInfo.t) :
  _get_node_info states prefix = Some m ->
  NodeInfo.pubkey m <> ""
  /\ PyStr.lower (NodeInfo.pubkey m) = NodeInfo.pubkey m
  /\ PyStr.startswith (NodeInfo.pubkey m) (PyStr.lower prefix) = true.
Proof.
  intros Hm. apply get_node_info_candidate in Hm as (st & _ & Hc & ->).
  unfold is_candidate in Hc. rewrite !andb_true_iff in Hc.
  destruct Hc as [[[_ Hid] Hpre] _]. simpl. split; [|split].
  - now apply take_truthy_nonempty.
  - unfold identity. apply lower_idempotent.
  - exact Hpre.
Qed.

Lemma resolved_identity_witness :
  PyStr.startswith
    (NodeInfo.pubkey (node_of sample_X)) (PyStr.lower "AAAA") = true.
Proof.
  apply (resolved_identity [sample_X; sample_Y] "AAAA" (node_of sample_X)).
  reflexivity.
Defined.

Lemma get_node_info_None states prefix :
  _get_node_info states prefix = None
  <-> List.filter (is_candidate prefix) states = [].
Proof.
  unfold _get_node_info. rewrite node_info_scan. cbn [app].
  destruct (List.filter (is_candidate prefix) states) as [|s1 [|s2 rest]].
  - simpl. tauto.
  - simpl. split; intros H; discriminate H.
  - split; [|intros H; discriminate H].
    cbn [map]. intros H.
    destruct (List.filter is_repeater _) as [|r rs].
    + destruct (head_sort_desc_first_latest (node_of s1)
                  (node_of s2 :: map node_of rest)) as (m & Hm & _).
      rewrite Hm in H. discriminate H.
    + destruct (head_sort_desc_first_latest r rs) as (m & Hm & _).
      rewrite Hm in H. discriminate H.
Qed.

Lemma lower_app a b : PyStr.lower (a +:+ b) = PyStr.lower a +:+ PyStr.lower b.
Proof. induction a as [|c a IH]; simpl; [reflexivity|now rewrite IH]. Qed.

Lemma prefix_app_l a b s :
  String.prefix (a +:+ b) s = true -> String.prefix a s = true.
Proof.
  revert s. induction a as [|c a IH]; intros s H.
  - now destruct s.
  - destruct s as [|c' s]; simpl in *; [discriminate H|].
    destruct (ascii_dec c c'); [now apply IH|discriminate H].
Qed.

Lemma is_candidate_shorter prefix more state :
  is_candidate (prefix +:+ more) state = true -> is_candidate prefix state = true.
Proof.
  unfold is_candidate, PyStr.startswith. rewrite !andb_true_iff, lower_app.
  intros [[[H1 H2] H3] H4]. repeat split; try assumption.
  now apply prefix_app_l in H3.
Qed.

(** X10.  A longer prefix resolves among fewer records: when a prefix
    resolves to nothing, so does every prefix that extends it. *)
Theorem resolver_longer_prefix (states : list State.t) (prefix more : string) :
  _get_node_info states prefix = None ->
  _get_node_info states (prefix +:+ more) = None.
Proof.
  rewrite !get_node_info_None. intros Hnone.
  destruct (List.filter (is_candidate (prefix +:+ more)) states) as [|st rest] eqn:Hf;
    [reflexivity|].
  assert (Hin : In st (List.filter (is_candidate (prefix +:+ more)) states))
    by (rewrite Hf; now left).
  apply filter_In in Hin as [Hin Hc]. apply is_candidate_shorter in Hc.
  assert (Hin' : In st (List.filter (is_candidate prefix) states))
    by (apply filter_In; auto).
  rewrite Hnone in Hin'. destruct Hin'.
Qed.

Lemma resolver_longer_prefix_witness :
  _get_node_info [sample_X; sample_Y] ("cc" +:+ "dd") = None.
Proof. apply resolver_longer_prefix. reflexivity. Defined.

(** X11.  Repeaters win: when one of the candidates for a prefix is a
    repeater, the resolver returns a repeater, whatever the
    [last_advert] of the other candidates. *)
Theorem resolver_prefers_repeaters (states : list State.t) (prefix : string)
    (state : State.t) :
  state ∈ states ->
  is_candidate prefix state = true ->
  is_repeater (node_of state) = true ->
  exists m, _get_node_info states prefix = Some m /\ is_repeater m = true.
Proof.
  intros Hin Hc Hr.
  assert (Hcand : In (node_of state)
                     (map node_of (List.filter (is_candidate prefix) states))).
  { apply in_map, filter_In. split; [now apply list_elem_of_In|exact Hc]. }
  unfold _get_node_info. rewrite node_info_scan. simpl.
  destruct (map node_of (List.filter (is_candidate prefix) states))
    as [|m1 [|m2 rest]] eqn:Hcands.
  - destruct Hcand.
  - destruct Hcand as [Heq|[]]. rewrite <- Heq in Hr. eauto.
  - assert (Hrep : In (node_of state) (List.filter is_repeater (m1 :: m2 :: rest)))
      by (apply filter_In; auto).
    destruct (List.filter is_repeater (m1 :: m2 :: rest)) as [|r rs] eqn:Hf;
      [destruct Hrep|].
    destruct (head_sort_desc_first_latest r rs) as (m & Hm & Hfl).
    exists m. split; [exact Hm|].
    apply first_latest_elem, list_elem_of_In in Hfl.
    rewrite <- Hf in Hfl. now apply filter_In in Hfl as [_ Hfl].
Qed.

Lemma resolver_prefers_repeaters_witness :
  exists m,
    _get_node_info
      [contact "aaaa22222222" "Late" "Client" (CoordNum 50) (CoordNum 3) 900; sample_X]
      "aaaa" = Some m
    /\ is_repeater m = true.
Proof.
  apply (resolver_prefers_repeaters _ _ sample_X).
  - apply list_elem_of_further, list_elem_of_here.
  - reflexivity.
  - reflexivity.
Defined.

(** *** Exports, further *)

Lemma nodemap_selected_age now_ts threshold_sec state :
  nodemap_selected now_ts threshold_sec state = true ->
  is_contact_sensor state = true
  /\ opt_truthy (Attr.last_advert (State.attributes state)) = true
  /\ (now_ts - default 0%Q (Attr.last_advert (State.attributes state))
      <= threshold_sec)%Q.
Proof.
  unfold nodemap_selected. rewrite !andb_true_iff, negb_true_iff, orb_false_iff.
  rewrite negb_false_iff. unfold Qgt_bool. rewrite negb_false_iff, Qle_bool_iff.
  tauto.
Qed.

(** X12.  Every nodemap entry stands for a contact record with a non-zero
    [last_advert], and its age in hours is at most the threshold the
    document reports. *)
Theorem nodemap_age_within_threshold (states : list State.t) (now_ts : Q) :
  let doc := _export_nodemap_data states now_ts in
  Forall
    (fun n =>
       (MapNode.age_hours n <= nodemap_threshold_hours doc)%Q
       /\ exists state last_advert,
            state ∈ states
            /\ is_contact_sensor state = true
            /\ Attr.last_advert (State.attributes state) = Some last_advert
            /\ ~ (last_advert == 0)%Q
            /\ MapNode.age_hours n = ((now_ts - last_advert) / 3600)%Q)
    (nodemap_nodes doc).
Proof.
  intros doc. unfold doc. rewrite nodemap_nodes_spec. fold doc.
  apply Forall_forall. intros n Hn.
  apply list_elem_of_In, in_map_iff in Hn as (st & <- & Hst).
  apply filter_In in Hst as [Hin Hsel].
  apply nodemap_selected_age in Hsel as (Hc & Hla & Hage).
  destruct (Attr.last_advert (State.attributes st)) as [la|] eqn:Hl;
    [|discriminate Hla].
  simpl in Hla, Hage. apply num_truthy_true in Hla.
  split.
  - unfold map_node_of; simpl. rewrite Hl; simpl.
    apply Qle_shift_div_r; [reflexivity|exact Hage].
  - exists st, la. rewrite list_elem_of_In.
    repeat split; try assumption.
    unfold map_node_of; simpl. now rewrite Hl.
Qed.

Section Totals.
Context {A : Type} (field : A -> Z).

Lemma total_app l1 l2 : total field (l1 ++ l2) = total field l1 + total field l2.
Proof. induction l1 as [|x l1 IH]; simpl; [reflexivity|rewrite IH; lia]. Qed.

Lemma total_values_set (d : PyDict.t A) k v :
  total field (PyDict.values (PyDict.set d k v))
  = total field (PyDict.values d)
    - match PyDict.get d k with Some old => field old | None => 0 end
    + field v.
Proof.
  induction d as [|[k' v'] d IH]; simpl; [lia|].
  destruct (String.eqb k' k); simpl; [lia|]. rewrite IH. lia.
Qed.

Lemma total_insert_desc x l :
  total field (insert_desc Z.ltb field x l) = field x + total field l.
Proof.
  induction l as [|y l IH]; simpl; [reflexivity|].
  destruct (field y <? field x)%Z; simpl; [reflexivity|]. rewrite IH. lia.
Qed.

Lemma total_sort_desc l : total field (sort_desc Z.ltb field l) = total field l.
Proof.
  unfold sort_desc.
  assert (H : forall acc,
    total field (fold_left (fun sorted x => insert_desc Z.ltb field x sorted) l acc)
    = total field acc + total field l).
  { induction l as [|x l IH]; intros acc; simpl; [lia|].
    rewrite IH, total_insert_desc. lia. }
  rewrite H. reflexivity.
Qed.

Lemma insert_desc_descending x l :
  descending field l -> descending field (insert_desc Z.ltb field x l).
Proof.
  induction l as [|y l IH]; simpl; intros Hd.
  - split; [constructor|exact I].
  - destruct Hd as [Hy Hd].
    destruct (Z.ltb_spec (field y) (field x)) as [Hlt|Hge]; simpl.
    + split; [|split; assumption].
      constructor; [lia|]. eapply Forall_impl; [exact Hy|].
      simpl. intros z Hz. lia.
    + split; [|now apply IH].
      apply Forall_insert_desc; [lia|exact Hy].
Qed.

Lemma sort_desc_descending l : descending field (sort_desc Z.ltb field l).
Proof.
  unfold sort_desc.
  apply (fold_left_invariant (descending field)); [|exact I].
  intros s x Hs. now apply insert_desc_descending.
Qed.

End Totals.

Lemma set_set {V} (d : PyDict.t V) k v v' :
  PyDict.set (PyDict.set d k v) k v' = PyDict.set d k v'.
Proof.
  induction d as [|[k0 v0] d IH]; simpl.
  - now rewrite String.eqb_refl.
  - destruct (String.eqb k0 k) eqn:Hk; simpl; rewrite Hk; [reflexivity|].
    now rewrite IH.
Qed.

(** Counting a node in the heatmap: its entry, created when missing,
    takes one more use. *)
Lemma heatmap_count_node_set node_data m :
  heatmap_count_node node_data m
  = PyDict.set node_data (NodeInfo.pubkey m)
      match PyDict.get node_data (NodeInfo.pubkey m) with
      | Some n =>
          HeatNode.mk (HeatNode.name n) (HeatNode.lat n) (HeatNode.lon n)
            (HeatNode.use_count n + 1)
      | None => HeatNode.mk (NodeInfo.name m) (NodeInfo.lat m) (NodeInfo.lon m) 1
      end.
Proof.
  unfold heatmap_count_node, PyDict.mem.
  destruct (PyDict.get node_data (NodeInfo.pubkey m)) as [n|] eqn:Hn; simpl.
  - now rewrite Hn.
  - now rewrite get_set_eq, set_set.
Qed.

Lemma track_node_set node_data m :
  track_node node_data m
  = PyDict.set node_data (NodeInfo.pubkey m)
      match PyDict.get node_data (NodeInfo.pubkey m) with
      | Some n =>
          LinkNode.mk (LinkNode.name n) (LinkNode.lat n) (LinkNode.lon n)
            (LinkNode.node_type n) (LinkNode.link_count n + 1)
      | None =>
          LinkNode.mk (NodeInfo.name m) (NodeInfo.lat m) (NodeInfo.lon m)
            (NodeInfo.node_type m) 1
      end.
Proof.
  unfold track_node, PyDict.mem.
  destruct (PyDict.get node_data (NodeInfo.pubkey m)) as [n|] eqn:Hn; simpl.
  - now rewrite Hn.
  - now rewrite get_set_eq, set_set.
Qed.

Lemma heatmap_loop_body_hops states now_ts threshold_sec node_data state :
  heatmap_loop_body states now_ts threshold_sec node_data state
  = fold_left heatmap_count_node (hop_nodes states now_ts threshold_sec state)
      node_data.
Proof.
  unfold heatmap_loop_body, hop_nodes, recent_hop.
  destruct (PyStr.contains "meshcore_hops_" (State.entity_id state)); simpl;
    [|reflexivity].
  destruct (negb _ || _); simpl; [reflexivity|].
  rewrite fold_left_flat_map.
  generalize (default [] (Attr.path_nodes (State.attributes state))).
  intros path. revert node_data.
  induction path as [|p path IH]; intros node_data; simpl; [reflexivity|].
  rewrite IH. f_equal. unfold heatmap_path_body.
  now destruct (_get_node_info states p).
Qed.

Lemma heatmap_scan states now_ts threshold_sec records node_data :
  fold_left (heatmap_loop_body states now_ts threshold_sec) records node_data
  = fold_left heatmap_count_node
      (flat_map (hop_nodes states now_ts threshold_sec) records) node_data.
Proof.
  rewrite fold_left_flat_map. revert node_data.
  induction records as [|st records IH]; intros node_data; simpl; [reflexivity|].
  now rewrite IH, heatmap_loop_body_hops.
Qed.

Lemma heatmap_count_node_total node_data m :
  total HeatNode.use_count (PyDict.values (heatmap_count_node node_data m))
  = total HeatNode.use_count (PyDict.values node_data) + 1.
Proof.
  rewrite heatmap_count_node_set, total_values_set.
  destruct (PyDict.get node_data (NodeInfo.pubkey m)); simpl; lia.
Qed.

Lemma heatmap_count_node_positive node_data m :
  Forall (fun n => 1 <= HeatNode.use_count n) (PyDict.values node_data) ->
  Forall (fun n => 1 <= HeatNode.use_count n)
    (PyDict.values (heatmap_count_node node_data m)).
Proof.
  intros Hd. rewrite heatmap_count_node_set.
  apply Forall_values_set; [exact Hd|].
  destruct (PyDict.get node_data (NodeInfo.pubkey m)) as [n|] eqn:Hn; simpl; [|lia].
  pose proof (Forall_values_get _ _ _ _ Hd Hn) as H. simpl in H. lia.
Qed.

(** X13.  The heatmap counts uses: the use counts of the exported nodes add up
    to the number of path nodes of the recent hop records that resolve,
    every exported node was used at least once, and the nodes come in
    descending order of use. *)
Theorem heatmap_use_counts (states : list State.t) (now_ts : Q) :
  let doc := _export_heatmap_data states now_ts in
  let hops :=
    resolved_hops states now_ts (heatmap_threshold_hours doc * 3600)%Q in
  total HeatNode.use_count (heatmap_nodes doc) = Z.of_nat (length hops)
  /\ Forall (fun n => 1 <= HeatNode.use_count n) (heatmap_nodes doc)
  /\ descending HeatNode.use_count (heatmap_nodes doc).
Proof.
  intros doc hops. unfold doc, _export_heatmap_data. cbn [heatmap_nodes].
  unfold hops, doc, _export_heatmap_data. cbn [heatmap_threshold_hours].
  unfold resolved_hops. rewrite heatmap_scan.
  generalize (flat_map
    (hop_nodes states now_ts
       (_get_threshold_hours states
          "input_number.meshcore_heatmap_threshold_hours" 168 * 3600)%Q) states).
  intros nodes. split; [|split].
  - rewrite total_sort_desc.
    assert (H : forall acc,
      total HeatNode.use_count (PyDict.values (fold_left heatmap_count_node nodes acc))
      = total HeatNode.use_count (PyDict.values acc) + Z.of_nat (length nodes)).
    { induction nodes as [|m nodes IH]; intros acc; [simpl; lia|].
      cbn [fold_left length]. rewrite IH, heatmap_count_node_total. lia. }
    rewrite H. reflexivity.
  - apply Forall_sort_desc.
    apply (fold_left_invariant
             (fun d => Forall (fun n => 1 <= HeatNode.use_count n) (PyDict.values d)));
      [|constructor].
    intros d m Hd. now apply heatmap_count_node_positive.
  - apply sort_desc_descending.
Qed.

Lemma directlinks_inner_collect states now_ts threshold_sec a_info conns acc :
  fold_left (directlinks_inner_body states now_ts threshold_sec a_info) conns acc
  = fold_left collect_edge
      (resolved_connections states now_ts threshold_sec a_info conns) acc.
Proof.
  unfold resolved_connections. rewrite fold_left_flat_map.
  revert acc. induction conns as [|[b_prefix link_info] conns IH];
    intros [node_data link_data]; [reflexivity|].
  cbn [fold_left]. rewrite <- IH. f_equal.
  unfold directlinks_inner_body; simpl.
  destruct (Qgt_bool _ _); [reflexivity|].
  now destruct (_get_node_info states b_prefix).
Qed.

(** The two loops of the export visit the resolved half-edges in order. *)
Lemma directlinks_collect_edges states links now_ts threshold_sec :
  directlinks_collect states links now_ts threshold_sec
  = fold_left collect_edge
      (resolved_edges states links now_ts threshold_sec) ([], []).
Proof.
  unfold directlinks_collect, resolved_edges, PyDict.items.
  rewrite fold_left_flat_map.
  generalize (@nil (string * LinkNode.t), @nil LinkEntry.t).
  induction links as [|[a_prefix conns] links IH]; intros acc; [reflexivity|].
  cbn [fold_left]. rewrite <- IH. f_equal.
  unfold directlinks_outer_body; simpl.
  destruct (_get_node_info states a_prefix); [|reflexivity].
  apply directlinks_inner_collect.
Qed.

Lemma track_node_total node_data m :
  total LinkNode.link_count (PyDict.values (track_node node_data m))
  = total LinkNode.link_count (PyDict.values node_data) + 1.
Proof.
  rewrite track_node_set, total_values_set.
  destruct (PyDict.get node_data (NodeInfo.pubkey m)); simpl; lia.
Qed.

Lemma track_node_positive node_data m :
  Forall (fun n => 1 <= LinkNode.link_count n) (PyDict.values node_data) ->
  Forall (fun n => 1 <= LinkNode.link_count n)
    (PyDict.values (track_node node_data m)).
Proof.
  intros Hd. rewrite track_node_set.
  apply Forall_values_set; [exact Hd|].
  destruct (PyDict.get node_data (NodeInfo.pubkey m)) as [n|] eqn:Hn; simpl; [|lia].
  pose proof (Forall_values_get _ _ _ _ Hd Hn) as H. simpl in H. lia.
Qed.

Lemma merge_existing_length link_key c link_data :
  length (snd (merge_existing link_key c link_data)) = length link_data.
Proof.
  induction link_data as [|link rest IH]; simpl; [reflexivity|].
  destruct (key_eqb _ _); simpl; [reflexivity|].
  destruct (merge_existing link_key c rest) as [existing rest'].
  simpl in *. now rewrite IH.
Qed.

Lemma add_edge_length link_data e :
  (length (add_edge link_data e) <= S (length link_data))%nat.
Proof.
  unfold add_edge, add_link.
  pose proof (merge_existing_length
                (PyStr.sorted2 (NodeInfo.pubkey (fst (fst e)))
                   (NodeInfo.pubkey (snd (fst e))))
                (count_or 1 (snd e)) link_data) as Hlen.
  destruct (merge_existing _ _ link_data) as [existing link_data'].
  simpl in Hlen. destruct existing; simpl.
  - lia.
  - rewrite List.length_app. simpl. lia.
Qed.

(** X14.  The direct-links node list counts half-edges: the link counts of the
    exported nodes add up to the number of store half-edges within the
    threshold whose two ends resolve, every exported node has a link
    count of at least 1, the nodes come in descending order of link
    count, and the links list is no longer than that number of
    half-edges. *)
Theorem directlinks_link_counts (states : list State.t) (links : Store)
    (now_ts : Q) :
  let doc := _export_directlinks_data states links now_ts in
  let edges :=
    resolved_edges states links now_ts (directlinks_threshold_hours doc * 3600)%Q in
  total LinkNode.link_count (directlinks_nodes doc) = Z.of_nat (length edges)
  /\ Forall (fun n => 1 <= LinkNode.link_count n) (directlinks_nodes doc)
  /\ descending LinkNode.link_count (directlinks_nodes doc)
  /\ (length (directlinks_links doc) <= length edges)%nat.
Proof.
  intros doc edges.
  destruct (directlinks_doc_fields states links now_ts) as [Hth _].
  cbv zeta in Hth. fold doc in Hth.
  unfold edges. rewrite Hth.
  unfold doc, _export_directlinks_data.
  rewrite directlinks_collect_edges.
  generalize (resolved_edges states links now_ts
    (_get_threshold_hours states
       "input_number.meshcore_heatmap_threshold_hours" 168 * 3600)%Q).
  intros es.
  assert (H : forall acc,
    let acc' := fold_left collect_edge es acc in
    total LinkNode.link_count (PyDict.values (fst acc'))
    = total LinkNode.link_count (PyDict.values (fst acc)) + Z.of_nat (length es)
    /\ (Forall (fun n => 1 <= LinkNode.link_count n) (PyDict.values (fst acc)) ->
        Forall (fun n => 1 <= LinkNode.link_count n) (PyDict.values (fst acc')))
    /\ (length (snd acc') <= length (snd acc) + length es)%nat).
  { induction es as [|e es IH]; intros acc; cbn [fold_left length].
    - cbv zeta. repeat split; [lia|auto|lia].
    - destruct (IH (collect_edge acc e)) as (Ht & Hp & Hl). cbv zeta.
      change (fst (collect_edge acc e))
        with (track_node (fst acc) (fst (fst e))) in Ht, Hp.
      change (snd (collect_edge acc e)) with (add_edge (snd acc) e) in Hl.
      split; [|split].
      + rewrite Ht, track_node_total. lia.
      + intros Hacc. apply Hp. now apply track_node_positive.
      + pose proof (add_edge_length (snd acc) e). lia. }
  destruct (H ([], [])) as (Ht & Hp & Hl). cbv zeta in *.
  destruct (fold_left collect_edge es ([], [])) as [node_data link_data].
  simpl in *. split; [|split; [|split]].
  - rewrite total_sort_desc. exact Ht.
  - apply Forall_sort_desc. apply Hp. constructor.
  - apply sort_desc_descending.
  - exact Hl.
Qed.

(** *** Greeting engine, further *)

Lemma send_greeting_greeted name pubkey w :
  greeted (snd (_send_greeting name pubkey w)) = greeted w ∪ {[pubkey]}
  \/ greeted (snd (_send_greeting name pubkey w))
     = (greeted w ∪ {[pubkey]}) ∖ {[pubkey]}.
Proof.
  destruct (greeting_failure w) as [msg|] eqn:Hf.
  - right. now destruct (send_greeting_failure name pubkey w msg Hf) as (H & _).
  - left. now destruct (send_greeting_success name pubkey w Hf) as (H & _).
Qed.

Lemma handler_greets_spec payload w :
  handler_greets payload w = true
  <-> Coordinator.greet_enabled (self w) = true
      /\ contact_type payload <> 2
      /\ contact_pubkey payload <> ""
      /\ (contact_pubkey payload ∉ greeted w).
Proof.
  unfold handler_greets.
  rewrite !andb_true_iff, !negb_true_iff, Z.eqb_neq, take_truthy_nonempty.
  rewrite bool_decide_eq_false. tauto.
Qed.

Lemma process_new_contact_silent payload w :
  handler_greets payload w = false ->
  _process_new_contact payload w = (Returns tt, w).
Proof.
  unfold handler_greets, _process_new_contact, py_bind, get_self, py_ret.
  fold (contact_type payload) (contact_pubkey payload). unfold greeted.
  destruct (Coordinator.greet_enabled (self w)); simpl; [|reflexivity].
  destruct (contact_type payload =? 2)%Z; simpl; [reflexivity|].
  destruct (PyStr.truthy (contact_pubkey payload)); simpl; [|reflexivity].
  destruct (bool_decide _); simpl; [reflexivity|discriminate].
Qed.

Lemma process_new_contact_keeps payload w p :
  p ∈ greeted w -> p ∈ greeted (after_contact payload w).
Proof.
  intros Hp. unfold after_contact.
  destruct (handler_greets payload w) eqn:Hg.
  - apply handler_greets_spec in Hg as (Hen & Hty & Hpk & Hnew).
    rewrite process_new_contact_greets by assumption.
    assert (Hne : p <> contact_pubkey payload) by (intros ->; contradiction).
    destruct (send_greeting_greeted (default "Unknown" (Event.adv_name payload))
                (contact_pubkey payload) w) as [-> | ->].
    + now apply elem_of_union_l.
    + apply elem_of_difference. split; [now apply elem_of_union_l|].
      intros H. apply elem_of_singleton in H. contradiction.
  - now rewrite process_new_contact_silent.
Qed.

(** X15.  The greeted set never loses an identity it held: over any sequence
    of events, whatever fails, the rollback takes out only the identity
    the failed greeting had put in. *)
Theorem greeted_set_never_loses (events : list (Event.t * Q)) (w : World)
    (p : string) :
  p ∈ greeted w -> p ∈ greeted (run_events events w).
Proof.
  revert w. induction events as [|[event now_ts] events IH]; intros w Hp.
  - exact Hp.
  - simpl. apply IH. unfold _handle_meshcore_event.
    destruct (String.eqb _ "EventType.RX_LOG_DATA"); [exact Hp|].
    destruct (String.eqb _ "EventType.NEW_CONTACT"); [|exact Hp].
    now apply process_new_contact_keeps.
Qed.

Lemma greeted_set_never_loses_witness :
  "abcdef123456"
  ∈ greeted
      (run_events
         [(Event.mk (Some "EventType.NEW_CONTACT")
             (Some (new_contact "ffff00000000" "Eve" TYPE_CLIENT)), 10%Q)]
         (sample_world {["abcdef123456"]} [Some "radio offline"])).
Proof.
  apply greeted_set_never_loses.
  change ("abcdef123456" ∈ ({["abcdef123456"]} : gset string)).
  now apply elem_of_singleton.
Defined.

(** X16.  The guards of the new-contact handler as they are written.  The
    handler reaches the greeting exactly when greeting is enabled, the
    type code is not 2, the truncated pubkey is not empty and it is not
    yet in the greeted set; it then issues one channel message.  In
    every other case nothing is issued and the world stays as it is.
    The test on the type code is the one of line 280 and stops type 2
    only: a room server, type 3, passes it, although the comment above
    the test names both. *)
Theorem new_contact_decision (payload : Event.Payload) (w : World) :
  (handler_greets payload w = true
   <-> Coordinator.greet_enabled (self w) = true
       /\ contact_type payload <> TYPE_REPEATER
       /\ contact_pubkey payload <> ""
       /\ (contact_pubkey payload ∉ greeted w))
  /\ (contact_type payload = TYPE_ROOM_SERVER ->
      handler_greets payload w = true
      <-> Coordinator.greet_enabled (self w) = true
          /\ contact_pubkey payload <> ""
          /\ (contact_pubkey payload ∉ greeted w))
  /\ (if handler_greets payload w
      then greetings_sent (after_contact payload w) = S (greetings_sent w)
      else after_contact payload w = w).
Proof.
  split; [apply handler_greets_spec|]. split.
  - intros Hty. rewrite handler_greets_spec, Hty. split.
    + intros (Hen & _ & Hpk & Hnew). auto.
    + intros (Hen & Hpk & Hnew). repeat split; try assumption. discriminate.
  - destruct (handler_greets payload w) eqn:Hg.
    + apply handler_greets_spec in Hg as (Hen & Hty & Hpk & Hnew).
      unfold after_contact. rewrite process_new_contact_greets by assumption.
      apply send_greeting_attempt.
    + unfold after_contact. now rewrite process_new_contact_silent.
Qed.

Lemma new_contact_decision_witness :
  let w := sample_world ∅ [] in
  let room := new_contact "abcdef123456" "Room" TYPE_ROOM_SERVER in
  handler_greets room w = true
  /\ greetings_sent (after_contact room w) = 1%nat.
Proof.
  intros w room.
  destruct (new_contact_decision room w) as (_ & Hroom & Hdec).
  assert (Hg : handler_greets room w = true).
  { apply Hroom; [reflexivity|].
    repeat split; [vm_compute; discriminate|apply not_elem_of_empty]. }
  split; [exact Hg|]. rewrite Hg in Hdec. exact Hdec.
Defined.

(** X17.  A failing notification makes the greeting go out twice: when the
    channel message is sent and only the notification after it fails,
    the identity is rolled back all the same, and the next event of the
    same contact sends the channel message again. *)
Theorem notification_failure_repeats_greeting (w : World)
    (payload : Event.Payload) (msg : string) (rest : list (option string)) :
  handler_greets payload w = true ->
  coming w = None :: Some msg :: rest ->
  let w1 := after_contact payload w in
  let w2 := after_contact payload w1 in
  greetings_sent w1 = S (greetings_sent w)
  /\ (contact_pubkey payload ∉ greeted w1)
  /\ greetings_sent w2 = S (S (greetings_sent w)).
Proof.
  intros Hg Hcoming w1 w2.
  apply handler_greets_spec in Hg as (Hen & Hty & Hpk & Hnew).
  assert (Hfail : greeting_failure w = Some msg).
  { unfold greeting_failure. now rewrite Hcoming. }
  assert (Hw1 : w1 = snd (_send_greeting (default "Unknown" (Event.adv_name payload))
                            (contact_pubkey payload) w)).
  { unfold w1, after_contact. now rewrite process_new_contact_greets. }
  destruct (send_greeting_failure (default "Unknown" (Event.adv_name payload))
              (contact_pubkey payload) w msg Hfail)
    as (Hgr & _ & _ & Hen').
  rewrite <- Hw1 in Hgr, Hen'.
  assert (Hout : contact_pubkey payload ∉ greeted w1)
    by (rewrite Hgr; apply rolled_back).
  assert (Hs1 : greetings_sent w1 = S (greetings_sent w)).
  { rewrite Hw1. apply send_greeting_attempt. }
  split; [exact Hs1|]. split; [exact Hout|].
  unfold w2, after_contact. rewrite process_new_contact_greets; auto.
  - rewrite send_greeting_attempt. now rewrite Hs1.
  - now rewrite Hen'.
Qed.

Lemma notification_failure_repeats_greeting_witness :
  let w := sample_world ∅ [None; Some "notify down"] in
  let bob := new_contact "abcdef123456" "Bob" TYPE_CLIENT in
  greetings_sent (after_contact bob (after_contact bob w)) = 2%nat.
Proof.
  intros w bob.
  refine (proj2 (proj2
    (notification_failure_repeats_greeting w bob "notify down" [] _ eq_refl))).
  apply handler_greets_spec. repeat split.
  - vm_compute. discriminate.
  - vm_compute. discriminate.
  - apply not_elem_of_empty.
Defined.

Lemma send_greeting_frame name pubkey w :
  let w' := snd (_send_greeting name pubkey w) in
  Hass.states (Coordinator.hass (self w')) = Hass.states (Coordinator.hass (self w))
  /\ Coordinator.last_message_times (self w') = Coordinator.last_message_times (self w)
  /\ Coordinator.my_name (self w') = Coordinator.my_name (self w)
  /\ Coordinator.greet_enabled (self w') = Coordinator.greet_enabled (self w)
  /\ Coordinator.direct_links (self w') = Coordinator.direct_links (self w).
Proof.
  py_unfold; simpl.
  destruct (Hass.outcomes (Coordinator.hass (self w))) as [|[msg|] rest];
    simpl; try (repeat split; reflexivity).
  destruct rest as [|[msg|] rest]; simpl; repeat split; reflexivity.
Qed.

Lemma process_new_contact_frame payload w :
  let w' := after_contact payload w in
  Hass.states (Coordinator.hass (self w')) = Hass.states (Coordinator.hass (self w))
  /\ Coordinator.last_message_times (self w') = Coordinator.last_message_times (self w)
  /\ Coordinator.my_name (self w') = Coordinator.my_name (self w)
  /\ Coordinator.greet_enabled (self w') = Coordinator.greet_enabled (self w)
  /\ Coordinator.direct_links (self w') = Coordinator.direct_links (self w).
Proof.
  unfold after_contact. destruct (handler_greets payload w) eqn:Hg.
  - apply handler_greets_spec in Hg as (Hen & Hty & Hpk & Hnew).
    rewrite process_new_contact_greets by assumption.
    apply send_greeting_frame.
  - rewrite process_new_contact_silent by assumption. repeat split; reflexivity.
Qed.

(** X18.  What the event handler leaves alone.  No event changes the
    host's states, the configuration or the last-activity map.  Only a
    path-trace event can change the link store; only a new-contact
    event can issue a service call, write to the log or change the
    greeted set; an event of any other type changes nothing. *)
Theorem event_handler_frame (event : Event.t) (now_ts : Q) (w : World) :
  let w' := snd (_handle_meshcore_event event now_ts w) in
  Hass.states (Coordinator.hass (self w')) = Hass.states (Coordinator.hass (self w))
  /\ Coordinator.last_message_times (self w') = Coordinator.last_message_times (self w)
  /\ Coordinator.my_name (self w') = Coordinator.my_name (self w)
  /\ Coordinator.greet_enabled (self w') = Coordinator.greet_enabled (self w)
  /\ (type_of event <> "EventType.RX_LOG_DATA" ->
      Coordinator.direct_links (self w') = Coordinator.direct_links (self w))
  /\ (type_of event <> "EventType.NEW_CONTACT" ->
      issued w' = issued w /\ coming w' = coming w
      /\ greeted w' = greeted w /\ log w' = log w)
  /\ (type_of event <> "EventType.RX_LOG_DATA" ->
      type_of event <> "EventType.NEW_CONTACT" -> w' = w).
Proof.
  unfold _handle_meshcore_event. fold (type_of event).
  destruct (String.eqb_spec (type_of event) "EventType.RX_LOG_DATA") as [Hrx|Hrx].
  - simpl. repeat split; try reflexivity; try contradiction.
  - destruct (String.eqb_spec (type_of event) "EventType.NEW_CONTACT") as [Hnc|Hnc].
    + destruct (process_new_contact_frame
                  (default Event.empty_payload (Event.payload event)) w)
        as (H1 & H2 & H3 & H4 & H5).
      unfold after_contact in *. cbv zeta.
      repeat split; try assumption; try contradiction; intros; assumption.
    + simpl. repeat split; reflexivity.
Qed.

Lemma event_handler_frame_witness :
  let w := sample_world {["abcdef123456"]} [Some "radio offline"] in
  let event :=
    Event.mk (Some "EventType.ADVERTISEMENT")
      (Some (new_contact "ffff00000000" "Eve" TYPE_CLIENT)) in
  snd (_handle_meshcore_event event 10 w) = w.
Proof.
  intros w event.
  destruct (event_handler_frame event 10 w) as (_ & _ & _ & _ & _ & _ & H).
  apply H; vm_compute; discriminate.
Defined.

(** *** Cleanup engine *)

(** The world after one removal command. *)
Lemma cleanup_loop_body_stale now_ts state w :
  stale (self w) now_ts state = true ->
  cleanup_loop_body now_ts cleanup_threshold_sec state w
  = (Returns tt,
     mkWorld
       (Coordinator.with_hass
          (fun h => Hass.mk (Hass.states h) (tail (Hass.outcomes h))
                      (Hass.calls h ++ [remove_call state]))
          (self w))
       (log w ++ removal_log [state] (coming w))).
Proof.
  unfold stale. rewrite !andb_true_iff. intros [[[Hc Ha] Hm] Hp].
  unfold cleanup_loop_body, py_bind, get_self, try_except, services_call,
    logger, py_ret, coming, remove_call.
  rewrite Hc; simpl. rewrite Ha, Hm, Hp; simpl.
  unfold Coordinator.with_hass; simpl.
  destruct (Hass.outcomes (Coordinator.hass (self w))) as [|[msg|] rest];
    reflexivity.
Qed.

Lemma cleanup_loop_body_other now_ts state w :
  stale (self w) now_ts state = false ->
  cleanup_loop_body now_ts cleanup_threshold_sec state w = (Returns tt, w).
Proof.
  unfold stale, cleanup_loop_body, py_bind, get_self, py_ret.
  destruct (is_contact_sensor state); simpl; [|reflexivity].
  destruct (is_old _ _ (Attr.last_advert _)); simpl; [|reflexivity].
  destruct (is_old _ _ (last_message_of _ _)); simpl; [|reflexivity].
  destruct (PyStr.truthy _); [discriminate|reflexivity].
Qed.

Lemma removal_log_app removed removed' outcomes :
  removal_log (removed ++ removed') outcomes
  = removal_log removed outcomes
    ++ removal_log removed' (drop (length removed) outcomes).
Proof.
  revert outcomes. induction removed as [|st removed IH]; intros outcomes; simpl.
  - now rewrite drop_0.
  - rewrite IH. destruct outcomes; simpl; [|reflexivity].
    now rewrite drop_nil.
Qed.

Lemma stale_after_removal c now_ts f state :
  stale (Coordinator.with_hass f c) now_ts state = stale c now_ts state.
Proof. reflexivity. Qed.

Lemma cleanup_sweep_from now_ts states w :
  let removed := List.filter (stale (self w) now_ts) states in
  for_each states (cleanup_loop_body now_ts cleanup_threshold_sec) w
  = (Returns tt,
     mkWorld
       (Coordinator.with_hass
          (fun h => Hass.mk (Hass.states h)
                      (drop (length removed) (Hass.outcomes h))
                      (Hass.calls h ++ map remove_call removed))
          (self w))
       (log w ++ removal_log removed (coming w))).
Proof.
  revert w. induction states as [|st states IH]; intros w; cbv zeta.
  - destruct w as [[[sts outs calls] ? ? ? ? ?] lg].
    unfold py_ret, Coordinator.with_hass. simpl. now rewrite !app_nil_r.
  - cbn [for_each List.filter]. unfold py_bind at 1.
    destruct (stale (self w) now_ts st) eqn:Hst.
    + rewrite cleanup_loop_body_stale by assumption.
      rewrite IH. cbv zeta. cbn [self log].
      rewrite (List.filter_ext _ _ (stale_after_removal (self w) now_ts _)).
      unfold coming, Coordinator.with_hass. simpl.
      rewrite <- !app_assoc. simpl.
      destruct (Hass.outcomes (Coordinator.hass (self w))) as [|o rest]; simpl;
        rewrite ?drop_nil; reflexivity.
    + rewrite cleanup_loop_body_other by assumption. apply IH.
Qed.

(** X19.  The sweep removes exactly the stale contacts and no failure stops
    it: whatever the service calls do, the sweep returns normally, it
    issues one remove command for each stale contact record, in the
    order of the host's states, each call takes one outcome and leaves
    one log record (a warning when it failed), and the caches, the
    configuration and the host's states stay as they are. *)
Theorem cleanup_sweep (now_ts : Q) (w : World) :
  let states := Hass.states (Coordinator.hass (self w)) in
  let removed := List.filter (stale (self w) now_ts) states in
  let w' := snd (_cleanup_old_contacts now_ts w) in
  fst (_cleanup_old_contacts now_ts w) = Returns tt
  /\ issued w' = issued w ++ map remove_call removed
  /\ coming w' = drop (length removed) (coming w)
  /\ log w' = log w ++ removal_log removed (coming w)
  /\ length (log w') = (length (log w) + length removed)%nat
  /\ Hass.states (Coordinator.hass (self w')) = states
  /\ greeted w' = greeted w
  /\ Coordinator.direct_links (self w') = Coordinator.direct_links (self w)
  /\ Coordinator.last_message_times (self w')
     = Coordinator.last_message_times (self w).
Proof.
  intros states removed w'.
  assert (Hrun : _cleanup_old_contacts now_ts w
                 = for_each states (cleanup_loop_body now_ts cleanup_threshold_sec) w)
    by reflexivity.
  unfold w'. rewrite Hrun, cleanup_sweep_from. cbv zeta. fold states removed.
  cbn [fst snd]. unfold issued, coming, greeted. cbn [self log].
  repeat split.
  rewrite List.length_app. f_equal.
  generalize (Hass.outcomes (Coordinator.hass (self w))).
  induction removed as [|st removed IH]; intros outcomes; simpl; [reflexivity|].
  now rewrite IH.
Qed.

(** *** Snapshot files *)

Lemma write_json_ok path what data disk log :
  Disk.write_error disk path = None ->
  write_json path what data (disk, log)
  = (Disk.mk (<[path := Readable data]> (Disk.files disk)) (Disk.write_error disk),
     log).
Proof. intros H. unfold write_json. now rewrite H. Qed.

(** The disk after a save whose three writes succeed. *)
Lemma save_snapshots_ok c now_ts disk log :
  Disk.write_error disk DIRECTLINKS_PERSIST_FILE = None ->
  Disk.write_error disk LAST_MESSAGES_FILE = None ->
  Disk.write_error disk GREETED_FILE = None ->
  let c' := _save_persisted_data c now_ts in
  save_snapshots c now_ts disk log
  = (c',
     (Disk.mk
        (<[GREETED_FILE :=
             Readable
               (Json.mk None None (Some (elements (Coordinator.greeted_pubkeys c')))
                  None (Some (Z.of_nat (size (Coordinator.greeted_pubkeys c')))))]>
           (<[LAST_MESSAGES_FILE :=
                Readable
                  (Json.mk None (Some (Coordinator.last_message_times c')) None
                     (Some now_ts) None)]>
              (<[DIRECTLINKS_PERSIST_FILE :=
                   Readable
                     (Json.mk (Some (Coordinator.direct_links c')) None None
                        (Some now_ts) None)]>
                 (Disk.files disk))))
        (Disk.write_error disk),
      log)).
Proof.
  intros H1 H2 H3 c'. unfold save_snapshots. cbv zeta. fold c'.
  rewrite (write_json_ok DIRECTLINKS_PERSIST_FILE) by exact H1.
  rewrite (write_json_ok LAST_MESSAGES_FILE) by exact H2.
  rewrite (write_json_ok GREETED_FILE) by exact H3.
  reflexivity.
Qed.

(** X20.  Save and load round trip.  When the three snapshot files can be
    written, the save logs nothing, and loading the files back, into any
    coordinator, gives the link store and the last-activity map as the
    save pass left them in memory, that is after pruning, and the
    greeted set as it was; the load logs nothing unless the hops-sensors
    file is unreadable. *)
Theorem save_load_round_trip (c c0 : Coordinator.t) (now_ts : Q)
    (disk : Disk.t) (log log0 : list (Level * string)) :
  Disk.write_error disk DIRECTLINKS_PERSIST_FILE = None ->
  Disk.write_error disk LAST_MESSAGES_FILE = None ->
  Disk.write_error disk GREETED_FILE = None ->
  let saved := save_snapshots c now_ts disk log in
  let loaded := _load_persisted_data (fst (snd saved)) c0 log0 in
  snd (snd saved) = log
  /\ Coordinator.direct_links (fst loaded) = Coordinator.direct_links (fst saved)
  /\ Coordinator.direct_links (fst saved)
     = clean_links now_ts (Coordinator.direct_links c)
  /\ Coordinator.last_message_times (fst loaded)
     = Coordinator.last_message_times (fst saved)
  /\ Coordinator.greeted_pubkeys (fst loaded) = Coordinator.greeted_pubkeys c
  /\ (match Disk.files disk !! HOPS_SENSORS_FILE with
      | Some (Unreadable _) => True
      | _ => snd loaded = log0
      end).
Proof.
  intros H1 H2 H3 saved loaded. unfold loaded, saved.
  rewrite (save_snapshots_ok c now_ts disk log H1 H2 H3).
  cbn [fst snd].
  unfold _load_persisted_data, load_json. cbn [Disk.files].
  rewrite (lookup_insert_ne _ GREETED_FILE DIRECTLINKS_PERSIST_FILE) by discriminate.
  rewrite (lookup_insert_ne _ LAST_MESSAGES_FILE DIRECTLINKS_PERSIST_FILE)
    by discriminate.
  rewrite lookup_insert_eq.
  rewrite (lookup_insert_ne _ GREETED_FILE LAST_MESSAGES_FILE) by discriminate.
  rewrite lookup_insert_eq.
  rewrite !(lookup_insert_ne _ _ HOPS_SENSORS_FILE) by discriminate.
  rewrite lookup_insert_eq.
  split; [reflexivity|].
  destruct (Disk.files disk !! HOPS_SENSORS_FILE) as [[msg|data]|]; simpl;
    rewrite list_to_set_elements_L; repeat split; reflexivity.
Qed.

Lemma save_load_round_trip_witness :
  let c :=
    Coordinator.mk (Hass.mk [] [] []) "Me" true sample_links
      [("aaaa11111111", 1000%Q)] {["abcdef123456"]} in
  let c0 := Coordinator.mk (Hass.mk [] [] []) "Me" true [] [] ∅ in
  let disk := Disk.mk ∅ (fun _ => None) in
  let saved := save_snapshots c 5000 disk [] in
  Coordinator.greeted_pubkeys (fst (_load_persisted_data (fst (snd saved)) c0 []))
  = {["abcdef123456"]}.
Proof.
  intros c c0 disk saved.
  destruct (save_load_round_trip c c0 5000 disk [] [] eq_refl eq_refl eq_refl)
    as (_ & _ & _ & _ & H & _).
  exact H.
Defined.
